(** * go-locks: ticket lock, array lock and MCS lock

    A shallow embedding of the three lock packages of the repository
    ([ticket], [alock], [mcs]) together with the properties of their
    single-thread-visible transitions.

    Conventions.
    - A Go [uint32] is a [Z] in [0, 2^32); every arithmetic operation of
      the source is followed by its wrap-around [u32].
    - An atomic read-modify-write is one function on the shared state.
      Where an operation reads shared memory more than once, the values
      read are parameters of the model (they are what other goroutines
      made them), and the interference-free run feeds them from the
      state itself.
    - A loop that waits for another goroutine is cut by the supply of
      observations (or by fuel); [Spins] is the outcome "still in the
      loop", [Panics] a Go run-time panic. *)

From Stdlib Require Import ZArith Lia Bool List.
From stdpp Require Import base option list gmap.

Local Open Scope Z_scope.

(** ** Machine integers *)

Definition u32 (x : Z) : Z := x mod 2 ^ 32.

Definition is_u32 (x : Z) : Prop := 0 <= x < 2 ^ 32.

(** Result of running a piece of code that may wait or panic. *)
Inductive outcome (A : Type) : Type :=
| Returns (a : A)
| Spins
| Panics.
Arguments Returns {A} a.
Arguments Spins {A}.
Arguments Panics {A}.

(** Packing two 32-bit halves into a 64-bit word, as
    [uint64(hi)<<32 | uint64(lo)] does. *)
Definition pack64 (hi lo : Z) : Z := Z.lor (Z.shiftl hi 32) lo.

Definition hi32 (w : Z) : Z := Z.shiftr w 32.
Definition lo32 (w : Z) : Z := Z.land w (Z.ones 32).

(** ** Package [ticket] (src/ticket/ticket.go) *)

Module Ticket.

(** [type Lock struct { head uint32; tail uint32 }]: the two fields lie
    next to each other, [head] at offset 0 and [tail] at offset 4. *)
Record lock : Type := mkLock { head : Z; tail : Z }.

Definition wf (t : lock) : Prop := is_u32 (head t) /\ is_u32 (tail t).

(** [func NewLock() *Lock { return &Lock{head: 1, tail: 0} }] *)
Definition NewLock : lock := {| head := 1; tail := 0 |}.

(** The cast of [unsafe.Pointer(t)] to a pointer to [uint64] views the
    eight bytes of the struct as one integer.  Which field ends up in the high half is decided by
    the byte order of the target: on a little-endian machine (amd64,
    arm64, riscv64, ...) the field at the lower address, [head], is the
    low half; on a big-endian one (s390x, ppc64, mips) it is the high
    half. *)
Inductive ByteOrder : Type := LittleEndian | BigEndian.

Definition word_of (bo : ByteOrder) (t : lock) : Z :=
  match bo with
  | LittleEndian => pack64 (tail t) (head t)
  | BigEndian => pack64 (head t) (tail t)
  end.

Definition lock_of (bo : ByteOrder) (w : Z) : lock :=
  match bo with
  | LittleEndian => {| head := lo32 w; tail := hi32 w |}
  | BigEndian => {| head := hi32 w; tail := lo32 w |}
  end.

(** What an operation does besides changing the lock. *)
Inductive event : Type :=
| EvCAS (old new : Z) (ok : bool)   (* atomic.CompareAndSwapUint64 *)
| EvBusySpin (n : Z)                (* an empty [for range n] loop *)
| EvSleep (ns : Z).                 (* time.Sleep *)

(** [atomic.CompareAndSwapUint64(addr, old, new)] on the whole struct. *)
Definition CompareAndSwapUint64 (bo : ByteOrder) (t : lock) (old new : Z)
  : bool * lock :=
  if word_of bo t =? old then (true, lock_of bo new) else (false, t).

(** [TryLock], from the value [me] it read from [t.tail] on: the plain
    read [me := t.tail] and the compare-and-swap are two accesses, and
    [t] here is the lock at the moment of the second. *)
Definition TryLock_cas (bo : ByteOrder) (me : Z) (t : lock)
  : bool * lock * list event :=
  let meNew := u32 (me + 1) in
  let old := pack64 (u32 (me + 1)) me in
  let new := pack64 (u32 (me + 1)) meNew in
  let '(ok, t') := CompareAndSwapUint64 bo t old new in
  (ok, t', [EvCAS old new ok]).

(** [TryLock] with nothing happening between its two accesses. *)
Definition TryLock (bo : ByteOrder) (t : lock) : bool * lock * list event :=
  TryLock_cas bo (tail t) t.

Definition ticketBaseWait : Z := 10.
Definition ticketWaitNext : Z := 5.

(** [time.Millisecond], in nanoseconds. *)
Definition Millisecond : Z := 1000000.

(** [func subAbs(a, b uint32) uint32] *)
Definition subAbs (a b : Z) : Z :=
  if b <? a then u32 (a - b) else u32 (b - a).

(** The two local variables of the wait loop of [Lock]. *)
Record spin_state : Type := mkSpin { wait : Z; distancePrev : Z }.

(** One turn of the wait loop of [Lock] after the load of [head] gave
    [cur], different from [myTicket]. *)
Definition Lock_probe (myTicket cur : Z) (s : spin_state)
  : spin_state * list event :=
  let distance := subAbs cur myTicket in
  let '(s1, spin) :=
    if 1 <? distance then
      let s' :=
        if negb (distance =? distancePrev s)
        then {| wait := ticketBaseWait; distancePrev := distance |}
        else s in
      (s', EvBusySpin (u32 (distance * wait s')))
    else (s, EvBusySpin ticketWaitNext) in
  (s1, spin :: (if 20 <? distance then [EvSleep Millisecond] else [])).

(** The wait loop; [heads] are the values the successive
    [atomic.LoadUint32(&t.head)] return. *)
Fixpoint Lock_loop (myTicket : Z) (heads : list Z) (s : spin_state)
  : list event * outcome unit :=
  match heads with
  | [] => ([], Spins)
  | cur :: rest =>
      if cur =? myTicket then ([], Returns tt)
      else
        let '(s', ev) := Lock_probe myTicket cur s in
        let '(evs, o) := Lock_loop myTicket rest s' in
        (ev ++ evs, o)
  end.

(** [Lock]: the atomic increment of [tail], the fast path, the loop.
    [head] is written by [Unlock] only, so the lock returned differs
    from [t] in [tail] alone. *)
Definition Lock (heads : list Z) (t : lock)
  : lock * list event * outcome unit :=
  let myTicket := u32 (tail t + 1) in
  let t' := {| head := head t; tail := myTicket |} in
  match heads with
  | [] => (t', [], Spins)
  | cur :: rest =>
      if cur =? myTicket then (t', [], Returns tt)
      else
        let '(evs, o) :=
          Lock_loop myTicket rest
            {| wait := ticketBaseWait; distancePrev := 1 |} in
        (t', evs, o)
  end.

(** [func (t *Lock) Unlock() { atomic.AddUint32(&t.head, 1) }] *)
Definition Unlock (t : lock) : lock :=
  {| head := u32 (head t + 1); tail := tail t |}.

(** [func (t *Lock) isFree() bool { return (t.head - t.tail) == 1 }] *)
Definition isFree (t : lock) : bool := u32 (head t - tail t) =? 1.

(** The wait of [Lock] in the words of its description: a probe that
    finds the lock [distance] tickets away spins [distance * wait] times
    with [wait] the base constant when [distance > 1], a fixed five
    times when [distance] is 1, and sleeps a millisecond on top when
    [distance > 20].  No state is carried from probe to probe.  The
    product is that of two [uint32]. *)
Definition spec_probe (myTicket cur : Z) : list event :=
  let distance := Z.abs (cur - myTicket) in
  (if 1 <? distance then [EvBusySpin (u32 (distance * 10))]
   else if distance =? 1 then [EvBusySpin 5]
   else [])
  ++ (if 20 <? distance then [EvSleep 1000000] else []).

Fixpoint spec_loop (myTicket : Z) (heads : list Z)
  : list event * outcome unit :=
  match heads with
  | [] => ([], Spins)
  | cur :: rest =>
      if cur =? myTicket then ([], Returns tt)
      else
        let '(evs, o) := spec_loop myTicket rest in
        (spec_probe myTicket cur ++ evs, o)
  end.

End Ticket.

(** ** Package [alock] (src/readme.md, second part) *)

Module ALock.

(** [type Share struct { flags []uint32; tail uint32; size uint32 }] *)
Record Share : Type := mkShare { flags : list Z; tail : Z; size : Z }.

(** [type ArrayLock struct { share *Share; myIndex uint32 }] *)
Record ArrayLock : Type := mkArrayLock { share : Share; myIndex : Z }.

(** [atomic.LoadUint32(&lock.flags[i])]; an index out of range panics. *)
Definition load_flag (i : Z) (fl : list Z) : option Z := fl !! Z.to_nat i.

(** [atomic.StoreUint32(&lock.flags[i], v)]; an index out of range
    panics (the list update alone would do nothing). *)
Definition store_flag (i v : Z) (fl : list Z) : option (list Z) :=
  if decide (Z.to_nat i < length fl)%nat
  then Some (<[Z.to_nat i := v]> fl)
  else None.

(** [NewArrayLock]: [make] gives [numGoroutines] zeros, then
    [share.flags[0] = 1].  The allocation is taken to succeed here; the
    constructor with the limit of [make] is [NewArrayLock_within]
    below. *)
Definition NewArrayLock (numGoroutines : Z) : outcome ArrayLock :=
  match store_flag 0 1 (replicate (Z.to_nat numGoroutines) 0) with
  | Some fl =>
      Returns {| share := {| flags := fl; tail := 0; size := numGoroutines |};
                 myIndex := 0 |}
  | None => Panics
  end.

(** First statements of [Lock]:
    [slot := atomic.AddUint32(&lock.tail, 1) % lock.size] and
    [al.myIndex = slot].  [atomic.AddUint32] returns the new value. *)
Definition Lock_enqueue (al : ArrayLock) : outcome (ArrayLock * Z) :=
  let lock := share al in
  let new := u32 (tail lock + 1) in
  if size lock =? 0 then Panics
  else
    let slot := new mod size lock in
    Returns ({| share := {| flags := flags lock; tail := new;
                            size := size lock |};
                myIndex := slot |}, slot).

(** The loop of [Lock]: one unit of fuel for each load of the flag. *)
Fixpoint Lock_wait (fuel : nat) (al : ArrayLock) (slot : Z)
  : outcome ArrayLock :=
  match fuel with
  | O => Spins
  | S fuel' =>
      match load_flag slot (flags (share al)) with
      | None => Panics
      | Some v => if v =? 0 then Lock_wait fuel' al slot else Returns al
      end
  end.

Definition Lock (fuel : nat) (al : ArrayLock) : outcome ArrayLock :=
  match Lock_enqueue al with
  | Returns (al', slot) => Lock_wait fuel al' slot
  | Spins => Spins
  | Panics => Panics
  end.

(** [Unlock] *)
Definition Unlock (al : ArrayLock) : outcome ArrayLock :=
  let lock := share al in
  let slot := myIndex al in
  match store_flag slot 0 (flags lock) with
  | None => Panics
  | Some fl0 =>
      if size lock =? 0 then Panics
      else
        let nextSlot := u32 (slot + 1) mod size lock in
        match store_flag nextSlot 1 fl0 with
        | None => Panics
        | Some fl1 =>
            Returns {| share := {| flags := fl1; tail := tail lock;
                                   size := size lock |};
                       myIndex := slot |}
        end
  end.

(** [TryLock] after its two loads gave [tail0] and [flag]; [al] is the
    lock at the compare-and-swap of [tail]. *)
Definition TryLock_cas (tail0 flag : Z) (al : ArrayLock) : bool * ArrayLock :=
  let lock := share al in
  if flag =? 1 then
    if tail lock =? tail0 then
      (true, {| share := {| flags := flags lock; tail := u32 (tail0 + 1);
                            size := size lock |};
                myIndex := tail0 mod size lock |})
    else (false, al)
  else (false, al).

(** [TryLock] with nothing happening between its accesses. *)
Definition TryLock (al : ArrayLock) : outcome (bool * ArrayLock) :=
  let lock := share al in
  let tail0 := tail lock in
  if size lock =? 0 then Panics
  else
    match load_flag (tail0 mod size lock) (flags lock) with
    | None => Panics
    | Some flag => Returns (TryLock_cas tail0 flag al)
    end.

(** A flag lets its waiter through when it is not zero ([Lock] waits
    while it is [0]; the code stores [0] and [1] only). *)
Definition is_open (v : Z) : bool := negb (v =? 0).

(** Exactly the flag at index [i] is open. *)
Definition only_open (i : Z) (fl : list Z) : Prop :=
  0 <= i < Z.of_nat (length fl) /\
  forall j v, fl !! j = Some v -> (is_open v = true <-> j = Z.to_nat i).

(** The slots handed to [k] calls of [Lock] that arrive one after the
    other, in the order of arrival. *)
Fixpoint Lock_slots (k : nat) (al : ArrayLock) : list Z :=
  match k with
  | O => []
  | S k' =>
      match Lock_enqueue al with
      | Returns (al', slot) => slot :: Lock_slots k' al'
      | _ => []
      end
  end.

End ALock.

(** ** Package [mcs] (src/ticket/ticket_test.go, second part) *)

Module MCS.

(** A [*QNode]: [None] is [nil]. *)
Definition loc : Type := positive.
Definition ptr : Type := option loc.

(** [type QNode struct { next atomic.Pointer[QNode]; waiting uint32 }] *)
Record QNode : Type := mkQNode { next : ptr; waiting : Z }.

(** [type Lock struct { tail atomic.Pointer[QNode] }] *)
Record lock : Type := mkLock { tail : ptr }.

(** The queue nodes live with their callers; the model keeps them in a
    store indexed by address. *)
Abbreviation nodes := (gmap positive QNode).

Inductive event : Type :=
| EvStoreNext (n : loc) (v : ptr)          (* n.next.Store(v) *)
| EvCASTail (old new : ptr) (ok : bool)    (* l.tail.CompareAndSwap *)
| EvGosched.                               (* runtime.Gosched() *)

Definition store_next (n : loc) (v : ptr) (h : nodes) : option nodes :=
  match h !! n with
  | Some q => Some (<[n := {| next := v; waiting := waiting q |}]> h)
  | None => None
  end.

Definition store_waiting (n : loc) (v : Z) (h : nodes) : option nodes :=
  match h !! n with
  | Some q => Some (<[n := {| next := next q; waiting := v |}]> h)
  | None => None
  end.

(** [func NewLock() *Lock { return new(Lock) }] *)
Definition NewLock : lock := {| tail := None |}.

(** [l.tail.CompareAndSwap(old, new)] *)
Definition CompareAndSwap (l : lock) (old new : ptr) : bool * lock :=
  if decide (tail l = old) then (true, {| tail := new |}) else (false, l).

(** [TryLock]; a [nil] node panics at [node.next.Store]. *)
Definition TryLock (node : ptr) (h : nodes) (l : lock)
  : outcome (bool * nodes * lock * list event) :=
  match node with
  | None => Panics
  | Some n =>
      match store_next n None h with
      | None => Panics
      | Some h' =>
          let '(ok, l') := CompareAndSwap l None (Some n) in
          Returns (ok, h', l', [EvStoreNext n None; EvCASTail None (Some n) ok])
      end
  end.

(** The loop of [Lock]: one unit of fuel for each load of
    [node.waiting]. *)
Fixpoint Lock_wait (fuel : nat) (n : loc) (h : nodes) : outcome unit :=
  match fuel with
  | O => Spins
  | S fuel' =>
      match h !! n with
      | None => Panics
      | Some q => if waiting q =? 0 then Returns tt else Lock_wait fuel' n h
      end
  end.

(** [Lock] *)
Definition Lock (fuel : nat) (node : ptr) (h : nodes) (l : lock)
  : outcome (nodes * lock) :=
  match node with
  | None => Panics
  | Some n =>
      match store_next n None h with
      | None => Panics
      | Some h0 =>
          let pred := tail l in
          let l' := {| tail := Some n |} in
          match pred with
          | None => Returns (h0, l')
          | Some p =>
              match store_waiting n 1 h0 with
              | None => Panics
              | Some h1 =>
                  match store_next p (Some n) h1 with
                  | None => Panics
                  | Some h2 =>
                      match Lock_wait fuel n h2 with
                      | Returns _ => Returns (h2, l')
                      | Spins => Spins
                      | Panics => Panics
                      end
                  end
              end
          end
      end
  end.

(** The loop of [Unlock] that waits for the successor to link itself:
    one unit of fuel for each load of [node.next]. *)
Fixpoint Unlock_wait (fuel : nat) (n : loc) (h : nodes) : outcome nodes :=
  match fuel with
  | O => Spins
  | S fuel' =>
      match h !! n with
      | None => Panics
      | Some q =>
          match next q with
          | Some succ =>
              match store_waiting succ 0 h with
              | Some h' => Returns h'
              | None => Panics
              end
          | None => Unlock_wait fuel' n h
          end
      end
  end.

(** [Unlock] *)
Definition Unlock (fuel : nat) (node : ptr) (h : nodes) (l : lock)
  : outcome (nodes * lock) :=
  match node with
  | None => Panics
  | Some n =>
      match h !! n with
      | None => Panics
      | Some q =>
          match next q with
          | None =>
              let '(ok, l') := CompareAndSwap l (Some n) None in
              if ok then Returns (h, l')
              else
                match Unlock_wait fuel n h with
                | Returns h' => Returns (h', l')
                | Spins => Spins
                | Panics => Panics
                end
          | Some succ =>
              match store_waiting succ 0 h with
              | Some h' => Returns (h', l)
              | None => Panics
              end
          end
      end
  end.

(** [func (l *Lock) IsFree() bool { return l.tail.Load() == nil }] *)
Definition IsFree (l : lock) : bool :=
  match tail l with None => true | Some _ => false end.

End MCS.

(** ** Goroutines sharing one ticket lock *)

Module TicketSys.

(** Where a goroutine that is inside [Lock] .. [Unlock] stands: it has
    taken [myTicket] and loads [head] until it sees it, or it has seen
    it and holds the lock. *)
Inductive pc : Type :=
| Waiting (myTicket : Z)
| Critical (myTicket : Z).

Definition ticket_of (p : pc) : Z :=
  match p with Waiting k | Critical k => k end.

(** The lock and the goroutines that are between the first statement of
    [Lock] (or a successful [TryLock]) and their [Unlock]. *)
Record sys : Type := mkSys { lk : Ticket.lock; threads : gmap nat pc }.

Definition init : sys := {| lk := Ticket.NewLock; threads := ∅ |}.

(** The atomic steps of [Lock] and [Unlock], one goroutine at a time:
    - [step_take]: [atomic.AddUint32(&t.tail, 1)], the state [Lock]
      leaves before its first load;
    - [step_enter]: a load of [head] (that of the fast path or one of
      the loop) gives the ticket, and [Lock] returns; a load that gives
      another value changes nothing;
    - [step_release]: [Unlock], called by the holder.
    Fewer than [2^32] goroutines are inside at a time. *)
Inductive lock_step : sys -> sys -> Prop :=
| step_take (s : sys) (i : nat) :
    threads s !! i = None ->
    Z.of_nat (size (threads s)) + 1 < 2 ^ 32 ->
    lock_step s
      {| lk := (Ticket.Lock [] (lk s)).1.1;
         threads := <[i := Waiting (Ticket.tail (Ticket.Lock [] (lk s)).1.1)]>
                      (threads s) |}
| step_enter (s : sys) (i : nat) (k : Z) :
    threads s !! i = Some (Waiting k) ->
    (Ticket.head (lk s) =? k) = true ->
    lock_step s {| lk := lk s; threads := <[i := Critical k]> (threads s) |}
| step_release (s : sys) (i : nat) (k : Z) :
    threads s !! i = Some (Critical k) ->
    lock_step s {| lk := Ticket.Unlock (lk s); threads := delete i (threads s) |}.

(** A [TryLock] whose compare-and-swap succeeds; [me] is what it read
    from [tail] at some earlier moment.  One that fails changes
    nothing. *)
Inductive try_step (bo : Ticket.ByteOrder) : sys -> sys -> Prop :=
| step_try (s : sys) (i : nat) (me : Z) (t' : Ticket.lock)
    (evs : list Ticket.event) :
    threads s !! i = None ->
    is_u32 me ->
    Ticket.TryLock_cas bo me (lk s) = (true, t', evs) ->
    try_step bo s
      {| lk := t'; threads := <[i := Critical (Ticket.tail t')]> (threads s) |}.

Definition step (bo : Ticket.ByteOrder) (s s' : sys) : Prop :=
  lock_step s s' \/ try_step bo s s'.

(** States reached from [init]. *)
Inductive reachable (R : sys -> sys -> Prop) : sys -> Prop :=
| reach_init : reachable R init
| reach_step (s s' : sys) : reachable R s -> R s s' -> reachable R s'.

(** At most one goroutine holds the lock. *)
Definition mutual_exclusion (s : sys) : Prop :=
  forall i j ki kj,
    threads s !! i = Some (Critical ki) ->
    threads s !! j = Some (Critical kj) ->
    i = j.

(** How many tickets after the one being served ticket [k] is. *)
Definition ahead (s : sys) (k : Z) : Z := u32 (k - Ticket.head (lk s)).

(** What holds of every state the goroutines can reach: the tickets of
    the goroutines inside are the [size] consecutive values from [head]
    to [tail], one goroutine for each, and a goroutine in its critical
    section has the ticket [head]. *)
Record Inv (s : sys) : Prop := mkInv {
  inv_wf : Ticket.wf (lk s);
  inv_bound : Z.of_nat (size (threads s)) < 2 ^ 32;
  inv_count :
    u32 (Ticket.tail (lk s) - Ticket.head (lk s) + 1) =
    Z.of_nat (size (threads s));
  inv_window : forall i p,
    threads s !! i = Some p ->
    is_u32 (ticket_of p) /\
    ahead s (ticket_of p) < Z.of_nat (size (threads s));
  inv_distinct : forall i j p q,
    threads s !! i = Some p -> threads s !! j = Some q ->
    ticket_of p = ticket_of q -> i = j;
  inv_critical : forall i k,
    threads s !! i = Some (Critical k) -> k = Ticket.head (lk s);
  inv_gapless : forall d,
    0 <= d < Z.of_nat (size (threads s)) ->
    exists i p, threads s !! i = Some p /\ ahead s (ticket_of p) = d
}.

End TicketSys.


(** ** States of an array lock *)

Module ALockState.

(** What [NewArrayLock] establishes and every operation keeps: as many
    flags as [size] says, at least one, and [myIndex] among them. *)
Definition wf (al : ALock.ArrayLock) : Prop :=
  0 < ALock.size (ALock.share al) < 2 ^ 32 /\
  Z.of_nat (length (ALock.flags (ALock.share al))) = ALock.size (ALock.share al) /\
  0 <= ALock.myIndex al < ALock.size (ALock.share al) /\
  is_u32 (ALock.tail (ALock.share al)).

(** The flags as the code writes them: [1] at index [i], [0] at every
    other index. *)
Definition hand_at (i : Z) (fl : list Z) : Prop :=
  0 <= i < Z.of_nat (length fl) /\
  fl = <[Z.to_nat i := 1]> (replicate (length fl) 0).

(** [make([]uint32, n)] gives a slice only when the runtime can
    allocate it.  Beyond some length [maxLen], which depends on the
    target and on the memory at hand, [make] panics with "len out of
    range" (on a 32-bit target, as soon as the slice does not fit the
    address space) or the program dies for want of memory; either way
    the call is over and there is no lock.  [make] comes first, the
    store into [flags[0]] second. *)
Definition NewArrayLock_within (maxLen numGoroutines : Z)
  : outcome ALock.ArrayLock :=
  if maxLen <? numGoroutines then Panics
  else ALock.NewArrayLock numGoroutines.


End ALockState.

(** ** The parts of the MCS [Lock] *)

Module MCSSteps.

(** [Lock] up to its loop: the store of [nil] into [node.next], the
    swap of [tail], and, when there was a predecessor, the stores into
    [node.waiting] and [pred.next].  The boolean says whether the loop
    follows. *)
Definition Lock_enqueue (node : MCS.ptr) (h : MCS.nodes) (l : MCS.lock)
  : outcome (MCS.nodes * MCS.lock * bool) :=
  match node with
  | None => Panics
  | Some n =>
      match MCS.store_next n None h with
      | None => Panics
      | Some h0 =>
          let pred := MCS.tail l in
          let l' := {| MCS.tail := Some n |} in
          match pred with
          | None => Returns (h0, l', false)
          | Some p =>
              match MCS.store_waiting n 1 h0 with
              | None => Panics
              | Some h1 =>
                  match MCS.store_next p (Some n) h1 with
                  | None => Panics
                  | Some h2 => Returns (h2, l', true)
                  end
              end
          end
      end
  end.

(** [Lock] from its parts. *)
Definition Lock_in_steps (fuel : nat) (node : MCS.ptr) (h : MCS.nodes)
    (l : MCS.lock) : outcome (MCS.nodes * MCS.lock) :=
  match Lock_enqueue node h l, node with
  | Returns (h', l', false), _ => Returns (h', l')
  | Returns (h', l', true), Some n =>
      match MCS.Lock_wait fuel n h' with
      | Returns _ => Returns (h', l')
      | Spins => Spins
      | Panics => Panics
      end
  | Returns (_, _, true), None => Panics
  | Spins, _ => Spins
  | Panics, _ => Panics
  end.

End MCSSteps.

(** ** Goroutines sharing one MCS lock *)

Module MCSSys.

(** Where a goroutine stands between two accesses to shared memory.
    Each goroutine has a queue node of its own and is named by it. *)
Inductive pc : Type :=
| Swapping                      (* Lock: next cleared, before tail.Swap *)
| SetWaiting (pred : MCS.loc)   (* Lock: swapped, before waiting = 1 *)
| Linking (pred : MCS.loc)      (* Lock: before pred.next.Store(node) *)
| Spinning                      (* Lock: in the loop on node.waiting *)
| Critical                      (* holds the lock *)
| Releasing                     (* Unlock: next was nil, before the CAS *)
| AwaitLink                     (* Unlock: CAS failed, loop on node.next *)
| Signalling                    (* Unlock: next was not nil, before the
                                   second load *)
| Signal (succ : MCS.loc)       (* Unlock: before succ.waiting = 0 *)
| Trying.                       (* TryLock: next cleared, before the CAS *)

Record sys : Type := mkSys {
  heap : gmap positive MCS.QNode;
  lk : MCS.lock;
  pcs : gmap positive pc
}.

(** A free lock, nobody inside, the nodes in any state. *)
Definition init (h : gmap positive MCS.QNode) : sys :=
  {| heap := h; lk := MCS.NewLock; pcs := ∅ |}.

(** One access to shared memory by the goroutine with node [n], in the
    order of the statements of [Lock], [Unlock] and [TryLock].  A load in
    a waiting loop that sends the goroutine round again changes nothing
    and is no step.  A node is used by one goroutine at a time, and
    [Unlock] is called by the holder. *)
Inductive step : sys -> sys -> Prop :=
| step_lock_begin (s : sys) (n : MCS.loc) (h' : gmap positive MCS.QNode) :
    pcs s !! n = None ->
    MCS.store_next n None (heap s) = Some h' ->
    step s {| heap := h'; lk := lk s; pcs := <[n := Swapping]> (pcs s) |}
| step_swap (s : sys) (n : MCS.loc) :
    pcs s !! n = Some Swapping ->
    step s {| heap := heap s; lk := {| MCS.tail := Some n |};
              pcs := <[n := match MCS.tail (lk s) with
                            | None => Critical
                            | Some pred => SetWaiting pred
                            end]> (pcs s) |}
| step_set_waiting (s : sys) (n pred : MCS.loc) (h' : gmap positive MCS.QNode) :
    pcs s !! n = Some (SetWaiting pred) ->
    MCS.store_waiting n 1 (heap s) = Some h' ->
    step s {| heap := h'; lk := lk s; pcs := <[n := Linking pred]> (pcs s) |}
| step_link (s : sys) (n pred : MCS.loc) (h' : gmap positive MCS.QNode) :
    pcs s !! n = Some (Linking pred) ->
    MCS.store_next pred (Some n) (heap s) = Some h' ->
    step s {| heap := h'; lk := lk s; pcs := <[n := Spinning]> (pcs s) |}
| step_spin_exit (s : sys) (n : MCS.loc) (q : MCS.QNode) :
    pcs s !! n = Some Spinning ->
    heap s !! n = Some q -> (MCS.waiting q =? 0) = true ->
    step s {| heap := heap s; lk := lk s; pcs := <[n := Critical]> (pcs s) |}
| step_unlock_load (s : sys) (n : MCS.loc) (q : MCS.QNode) :
    pcs s !! n = Some Critical ->
    heap s !! n = Some q ->
    step s {| heap := heap s; lk := lk s;
              pcs := <[n := match MCS.next q with
                            | None => Releasing
                            | Some _ => Signalling
                            end]> (pcs s) |}
| step_release_cas (s : sys) (n : MCS.loc) (ok : bool) (l' : MCS.lock) :
    pcs s !! n = Some Releasing ->
    MCS.CompareAndSwap (lk s) (Some n) None = (ok, l') ->
    step s {| heap := heap s; lk := l';
              pcs := if ok then delete n (pcs s)
                     else <[n := AwaitLink]> (pcs s) |}
| step_await (s : sys) (n succ : MCS.loc) (q : MCS.QNode) :
    pcs s !! n = Some AwaitLink ->
    heap s !! n = Some q -> MCS.next q = Some succ ->
    step s {| heap := heap s; lk := lk s; pcs := <[n := Signal succ]> (pcs s) |}
| step_signalling (s : sys) (n succ : MCS.loc) (q : MCS.QNode) :
    pcs s !! n = Some Signalling ->
    heap s !! n = Some q -> MCS.next q = Some succ ->
    step s {| heap := heap s; lk := lk s; pcs := <[n := Signal succ]> (pcs s) |}
| step_signal (s : sys) (n succ : MCS.loc) (h' : gmap positive MCS.QNode) :
    pcs s !! n = Some (Signal succ) ->
    MCS.store_waiting succ 0 (heap s) = Some h' ->
    step s {| heap := h'; lk := lk s; pcs := delete n (pcs s) |}
| step_try_begin (s : sys) (n : MCS.loc) (h' : gmap positive MCS.QNode) :
    pcs s !! n = None ->
    MCS.store_next n None (heap s) = Some h' ->
    step s {| heap := h'; lk := lk s; pcs := <[n := Trying]> (pcs s) |}
| step_try_cas (s : sys) (n : MCS.loc) (ok : bool) (l' : MCS.lock) :
    pcs s !! n = Some Trying ->
    MCS.CompareAndSwap (lk s) None (Some n) = (ok, l') ->
    step s {| heap := heap s; lk := l';
              pcs := if ok then <[n := Critical]> (pcs s)
                     else delete n (pcs s) |}.

Inductive reachable (h0 : gmap positive MCS.QNode) : sys -> Prop :=
| reach_init : reachable h0 (init h0)
| reach_step (s s' : sys) : reachable h0 s -> step s s' -> reachable h0 s'.

(** At most one goroutine holds the lock. *)
Definition mutual_exclusion (s : sys) : Prop :=
  forall n m, pcs s !! n = Some Critical -> pcs s !! m = Some Critical -> n = m.

(** Whether a goroutine at this point has put its node into [tail] and
    not yet handed the lock on. *)
Definition queued (p : pc) : bool :=
  match p with Swapping | Trying => false | _ => true end.

(** What ties a queued node [b] to the node [a] queued just before it:
    [b] is still on its way into the loop, or in it with its flag set
    and [a.next] pointing to it. *)
Definition link (s : sys) (a b : MCS.loc) : Prop :=
  exists qa qb pb,
    heap s !! a = Some qa /\ heap s !! b = Some qb /\ pcs s !! b = Some pb /\
    ((pb = SetWaiting a /\ MCS.next qa = None) \/
     (pb = Linking a /\ MCS.next qa = None /\ MCS.waiting qb = 1) \/
     (pb = Spinning /\ MCS.next qa = Some b /\ MCS.waiting qb = 1)).

(** What the first node [n] of the queue may be doing: it is past the
    way into the loop; in the loop its flag is already cleared; when it
    waits for its successor's link there is a successor; when it has
    seen a successor in [next], the successor is still there. *)
Definition head_ok (s : sys) (Q : list MCS.loc) (n : MCS.loc) (p : pc) : Prop :=
  match p with
  | SetWaiting _ | Linking _ | Swapping | Trying => False
  | Spinning => exists q, heap s !! n = Some q /\ MCS.waiting q = 0
  | AwaitLink => exists b, Q !! 1%nat = Some b
  | Signalling => exists q succ, heap s !! n = Some q /\ MCS.next q = Some succ
  | Signal succ => Q !! 1%nat = Some succ /\ pcs s !! succ = Some Spinning
  | Critical | Releasing => True
  end.

(** The queue [Q] of the nodes that are in line for the lock, the
    holder's first, describes the state [s]. *)
Record InvQ (s : sys) (Q : list MCS.loc) : Prop := mkInvQ {
  inv_nodup : NoDup Q;
  inv_tail : MCS.tail (lk s) = last Q;
  inv_queued : forall n p, pcs s !! n = Some p -> (n ∈ Q <-> queued p = true);
  inv_inside : forall n, n ∈ Q -> exists p, pcs s !! n = Some p;
  inv_outside : forall n p,
    pcs s !! n = Some p -> queued p = false ->
    exists q, heap s !! n = Some q /\ MCS.next q = None;
  inv_link : forall i a b,
    Q !! i = Some a -> Q !! S i = Some b -> link s a b;
  inv_last : forall a,
    last Q = Some a -> exists q, heap s !! a = Some q /\ MCS.next q = None;
  inv_head : forall a p,
    Q !! 0%nat = Some a -> pcs s !! a = Some p -> head_ok s Q a p
}.

End MCSSys.

(** * Properties *)

(** ** Machine integers *)

Lemma u32_range x : is_u32 (u32 x).
Proof. unfold is_u32, u32. apply Z.mod_pos_bound. lia. Qed.

Lemma u32_id x : is_u32 x -> u32 x = x.
Proof. unfold is_u32, u32. intros H. apply Z.mod_small. lia. Qed.

Lemma hi32_pack64 hi lo : is_u32 lo -> hi32 (pack64 hi lo) = hi.
Proof.
  intros [Hl Hu]. unfold hi32, pack64.
  rewrite Z.shiftr_lor, Z.shiftr_shiftl_l by lia.
  replace (32 - 32) with 0 by lia. rewrite Z.shiftl_0_r.
  rewrite (Z.shiftr_div_pow2 lo) by lia.
  rewrite Z.div_small by lia. apply Z.lor_0_r.
Qed.

Lemma lo32_pack64 hi lo : is_u32 lo -> lo32 (pack64 hi lo) = lo.
Proof.
  intros [Hl Hu]. unfold lo32, pack64.
  rewrite Z.land_lor_distr_l, !Z.land_ones by lia.
  rewrite Z.shiftl_mul_pow2 by lia.
  rewrite Z.mod_mul by lia. rewrite Z.mod_small by lia.
  apply Z.lor_0_l.
Qed.

Lemma pack64_inj h1 l1 h2 l2 :
  is_u32 l1 -> is_u32 l2 ->
  pack64 h1 l1 = pack64 h2 l2 -> h1 = h2 /\ l1 = l2.
Proof.
  intros H1 H2 E. split.
  - rewrite <- (hi32_pack64 h1 l1), <- (hi32_pack64 h2 l2) by assumption.
    now rewrite E.
  - rewrite <- (lo32_pack64 h1 l1), <- (lo32_pack64 h2 l2) by assumption.
    now rewrite E.
Qed.

(** ** Ticket lock *)

Section TicketFacts.
Import Ticket.

Lemma word_of_lock_of bo hi lo :
  is_u32 hi -> is_u32 lo ->
  lock_of bo (pack64 hi lo) =
  match bo with
  | LittleEndian => {| head := lo; tail := hi |}
  | BigEndian => {| head := hi; tail := lo |}
  end.
Proof.
  intros Hh Hl. destruct bo; unfold lock_of;
    now rewrite hi32_pack64, lo32_pack64.
Qed.

(** The compare-and-swap of [TryLock] on a big-endian target: it
    succeeds exactly when [tail] is still the value read and [head] is
    one ahead of it, and then moves [tail] alone. *)
Lemma TryLock_cas_big_endian me t :
  wf t -> is_u32 me ->
  TryLock_cas BigEndian me t =
  if (head t =? u32 (me + 1)) && (tail t =? me)
  then (true, {| head := head t; tail := u32 (tail t + 1) |},
        [EvCAS (pack64 (u32 (me + 1)) me)
               (pack64 (u32 (me + 1)) (u32 (me + 1))) true])
  else (false, t,
        [EvCAS (pack64 (u32 (me + 1)) me)
               (pack64 (u32 (me + 1)) (u32 (me + 1))) false]).
Proof.
  intros [Hh Ht] Hme. unfold TryLock_cas, CompareAndSwapUint64, word_of.
  destruct (pack64 (head t) (tail t) =? pack64 (u32 (me + 1)) me) eqn:E.
  - apply Z.eqb_eq in E. apply pack64_inj in E as [E1 E2]; try assumption.
    rewrite word_of_lock_of by apply u32_range.
    rewrite E1, E2, !Z.eqb_refl. reflexivity.
  - destruct (head t =? u32 (me + 1)) eqn:E1;
      destruct (tail t =? me) eqn:E2; simpl; try reflexivity.
    apply Z.eqb_eq in E1, E2. rewrite E1, E2, Z.eqb_refl in E. discriminate.
Qed.

(** The same compare-and-swap on a little-endian target: the halves of
    the word are the other way round, so it succeeds exactly when
    [head] is the value read from [tail] and [tail] is one ahead of it,
    and then moves [head]. *)
Lemma TryLock_cas_little_endian me t :
  wf t -> is_u32 me ->
  TryLock_cas LittleEndian me t =
  if (tail t =? u32 (me + 1)) && (head t =? me)
  then (true, {| head := u32 (head t + 1); tail := tail t |},
        [EvCAS (pack64 (u32 (me + 1)) me)
               (pack64 (u32 (me + 1)) (u32 (me + 1))) true])
  else (false, t,
        [EvCAS (pack64 (u32 (me + 1)) me)
               (pack64 (u32 (me + 1)) (u32 (me + 1))) false]).
Proof.
  intros [Hh Ht] Hme. unfold TryLock_cas, CompareAndSwapUint64, word_of.
  destruct (pack64 (tail t) (head t) =? pack64 (u32 (me + 1)) me) eqn:E.
  - apply Z.eqb_eq in E. apply pack64_inj in E as [E1 E2]; try assumption.
    rewrite word_of_lock_of by apply u32_range.
    rewrite E1, E2, !Z.eqb_refl. reflexivity.
  - destruct (tail t =? u32 (me + 1)) eqn:E1;
      destruct (head t =? me) eqn:E2; simpl; try reflexivity.
    apply Z.eqb_eq in E1, E2. rewrite E1, E2, Z.eqb_refl in E. discriminate.
Qed.

Lemma u32_succ_neq x : is_u32 x -> u32 (x + 1) <> x.
Proof.
  unfold is_u32, u32. intros H E.
  destruct (Z.eq_dec x (2 ^ 32 - 1)) as [->|N].
  - vm_compute in E. discriminate.
  - rewrite Z.mod_small in E by lia. lia.
Qed.

(** Without interference [TryLock] never succeeds on a little-endian
    target, whatever the lock holds. *)
Lemma TryLock_little_endian_never t :
  wf t -> (TryLock LittleEndian t).1.1 = false /\ (TryLock LittleEndian t).1.2 = t.
Proof.
  intros W. unfold TryLock.
  rewrite TryLock_cas_little_endian by (try assumption; apply W).
  destruct (tail t =? u32 (tail t + 1)) eqn:E; simpl; [|now split].
  apply Z.eqb_eq in E. symmetry in E. now apply u32_succ_neq in E; [|apply W].
Qed.

End TicketFacts.

Section TicketWait.
Import Ticket.

Lemma subAbs_abs a b : is_u32 a -> is_u32 b -> subAbs a b = Z.abs (a - b).
Proof.
  unfold is_u32, subAbs, u32. intros Ha Hb.
  destruct (b <? a) eqn:E; [apply Z.ltb_lt in E | apply Z.ltb_ge in E];
    rewrite Z.mod_small by lia; lia.
Qed.

(** With [wait] at the base constant, a probe of the code is a probe of
    the description, and [wait] stays at the base constant. *)
Lemma Lock_probe_spec myTicket cur s :
  is_u32 myTicket -> is_u32 cur -> cur <> myTicket ->
  wait s = ticketBaseWait ->
  (Lock_probe myTicket cur s).2 = spec_probe myTicket cur /\
  wait (Lock_probe myTicket cur s).1 = ticketBaseWait.
Proof.
  intros Ht Hc Hne Hw. unfold Lock_probe, spec_probe.
  rewrite subAbs_abs by assumption.
  set (d := Z.abs (cur - myTicket)).
  assert (Hd : 1 <= d) by (unfold d; lia).
  destruct (1 <? d) eqn:E1.
  - destruct (d =? distancePrev s) eqn:E2; simpl; rewrite ?Hw; split; reflexivity.
  - apply Z.ltb_ge in E1. assert (d = 1) as -> by lia. simpl.
    split; [reflexivity | assumption].
Qed.

Lemma Lock_loop_spec myTicket heads : forall s,
  is_u32 myTicket -> Forall is_u32 heads ->
  wait s = ticketBaseWait ->
  Lock_loop myTicket heads s = spec_loop myTicket heads.
Proof.
  induction heads as [|cur rest IH]; intros s Ht Hh Hw; [reflexivity|].
  apply Forall_cons in Hh as [Hc Hr]. simpl.
  destruct (cur =? myTicket) eqn:E; [reflexivity|].
  apply Z.eqb_neq in E.
  destruct (Lock_probe_spec myTicket cur s Ht Hc E Hw) as [He Hw'].
  destruct (Lock_probe myTicket cur s) as [s' ev]. simpl in He, Hw'.
  rewrite (IH s' Ht Hr Hw'), He. reflexivity.
Qed.

End TicketWait.

Section TicketClaims.
Import Ticket.

(** The table of [TestSubAbs] in ticket_test.go. *)
Example subAbs_tests :
  map (fun '(a, b) => subAbs a b)
      [(0, 0); (1, 1); (10, 5); (5, 10); (4294967295, 0); (0, 4294967295)]
  = [0; 0; 5; 5; 4294967295; 4294967295].
Proof. reflexivity. Qed.

(** C10.  For 32-bit unsigned [a] and [b], [subAbs a b] is the exact
    absolute difference [max a b - min a b], with no wrap-around; so it
    is commutative and [subAbs a a = 0]. *)
Theorem subAbs_absolute_difference (a b : Z) :
  is_u32 a -> is_u32 b ->
  subAbs a b = Z.max a b - Z.min a b /\
  subAbs a b = subAbs b a /\
  subAbs a a = 0.
Proof.
  intros Ha Hb. rewrite !subAbs_abs by assumption.
  unfold is_u32 in *. repeat split; lia.
Qed.

Lemma subAbs_absolute_difference_witness :
  is_u32 4294967295 /\ is_u32 0 /\
  subAbs 4294967295 0 = Z.max 4294967295 0 - Z.min 4294967295 0 /\
  subAbs 4294967295 0 = subAbs 0 4294967295 /\
  subAbs 4294967295 4294967295 = 0.
Proof.
  split; [unfold is_u32; lia|]. split; [unfold is_u32; lia|].
  apply (subAbs_absolute_difference 4294967295 0); unfold is_u32; lia.
Defined.

(** C6.  [Lock] takes its ticket by incrementing [tail].  If the first
    load of [head] gives the ticket it returns at once, with no spin.
    Otherwise every probe of the wait loop computes
    [distance = |head - ticket|] and: when [distance > 1] spins
    [distance * wait] times (the product of two [uint32]), where [wait]
    is the base constant 10 after any probe whose distance differs from
    the remembered one; when [distance = 1] spins 5 times; when
    [distance > 20] sleeps a millisecond as well.  The whole run is the
    one the description gives, probe by probe. *)
Theorem Lock_adaptive_wait (t : lock) (cur : Z) (heads : list Z)
    (s : spin_state) :
  is_u32 cur -> Forall is_u32 heads ->
  let myTicket := u32 (tail t + 1) in
  let t' := {| head := head t; tail := myTicket |} in
  let distance := Z.abs (cur - myTicket) in
  Lock (myTicket :: heads) t = (t', [], Returns tt) /\
  (cur <> myTicket ->
   let s' := (Lock_probe myTicket cur s).1 in
   subAbs cur myTicket = distance /\
   (Lock_probe myTicket cur s).2 =
     EvBusySpin (if 1 <? distance then u32 (distance * wait s') else 5)
     :: (if 20 <? distance then [EvSleep Millisecond] else []) /\
   (1 < distance -> distance <> distancePrev s -> wait s' = 10) /\
   (1 < distance -> distance = distancePrev s -> wait s' = wait s) /\
   (distance = 1 -> s' = s) /\
   Lock (cur :: heads) t =
     (t', (spec_loop myTicket heads).1, (spec_loop myTicket heads).2)).
Proof.
  intros Hc Hh myTicket t' distance.
  assert (Ht : is_u32 myTicket) by apply u32_range.
  split.
  { unfold Lock. fold myTicket. now rewrite Z.eqb_refl. }
  intros Hne s'.
  assert (Hd : subAbs cur myTicket = distance) by now apply subAbs_abs.
  assert (Hrun : Lock (cur :: heads) t =
                 (t', (spec_loop myTicket heads).1, (spec_loop myTicket heads).2)).
  { unfold Lock. fold myTicket. fold t'.
    destruct (cur =? myTicket) eqn:E; [apply Z.eqb_eq in E; contradiction|].
    rewrite Lock_loop_spec by (try assumption; reflexivity).
    now destruct (spec_loop myTicket heads). }
  split; [assumption|].
  unfold s', Lock_probe. rewrite Hd.
  destruct (1 <? distance) eqn:E1.
  - apply Z.ltb_lt in E1.
    destruct (distance =? distancePrev s) eqn:E2; simpl;
      [apply Z.eqb_eq in E2 | apply Z.eqb_neq in E2];
      repeat split; try reflexivity; try assumption; try lia.
  - apply Z.ltb_ge in E1. simpl.
    repeat split; try reflexivity; try assumption; try lia.
Qed.

Lemma Lock_adaptive_wait_witness :
  let t := {| head := 2; tail := 24 |} in
  let s := {| wait := 10; distancePrev := 1 |} in
  Lock [25; 3; 3; 24; 25] t = ({| head := 2; tail := 25 |}, [], Returns tt) /\
  (Lock_probe 25 3 s).2 = [EvBusySpin 220; EvSleep 1000000] /\
  Lock [3; 3; 3; 24; 25] t =
    ({| head := 2; tail := 25 |},
     [EvBusySpin 220; EvSleep 1000000; EvBusySpin 220; EvSleep 1000000;
      EvBusySpin 5], Returns tt).
Proof.
  intros t s.
  assert (Hc : is_u32 3) by (unfold is_u32; lia).
  assert (Hh : Forall is_u32 [3; 3; 24; 25])
    by (repeat constructor; unfold is_u32; lia).
  destruct (Lock_adaptive_wait t 3 [3; 3; 24; 25] s Hc Hh) as [H1 H2].
  assert (Hne : 3 <> u32 (tail t + 1)) by (vm_compute; discriminate).
  destruct (H2 Hne) as (_ & Hp & _ & _ & _ & Hrun).
  split; [exact H1|]. split; [exact Hp | exact Hrun].
Defined.

(** C1.  [TryLock] is one compare-and-swap on the 64-bit word over
    [head] and [tail], meant to succeed only when [head = tail + 1] and
    then to advance [tail] and keep [head].  The source builds the words
    with [head] in the high half.  On a little-endian target [head] is
    the low half of the word, and there the code differs: a goroutine
    that read [tail = 2] while the lock was held ([head = 2, tail = 2])
    and reaches its compare-and-swap after another [Lock] took ticket 3
    succeeds although [head <> tail + 1], and the word it writes
    advances [head] and keeps [tail]; and on a new, free lock [TryLock]
    returns false. *)
Theorem TryLock_little_endian_divergence :
  let held := (Lock [2] (Unlock (Lock [1] NewLock).1.1)).1.1 in
  let me := tail held in
  let queued := (Lock [2] held).1.1 in
  held = {| head := 2; tail := 2 |} /\
  queued = {| head := 2; tail := 3 |} /\
  head queued <> u32 (tail queued + 1) /\
  TryLock_cas LittleEndian me queued =
    (true, {| head := 3; tail := 3 |},
     [EvCAS (pack64 3 2) (pack64 3 3) true]) /\
  isFree NewLock = true /\
  TryLock LittleEndian NewLock =
    (false, NewLock, [EvCAS (pack64 1 0) (pack64 1 1) false]).
Proof.
  vm_compute. repeat split; congruence.
Qed.

(** On a big-endian target the same code does what C1 says: the one
    compare-and-swap succeeds only if [head = tail + 1] at that moment,
    and then [tail] is one more and [head] is the same. *)
Lemma TryLock_big_endian_spec (me : Z) (t : lock) :
  wf t -> is_u32 me ->
  exists ok t' old new,
    TryLock_cas BigEndian me t = (ok, t', [EvCAS old new ok]) /\
    (ok = true -> head t = u32 (tail t + 1)) /\
    (ok = true -> tail t' = u32 (tail t + 1) /\ head t' = head t) /\
    (ok = false -> t' = t).
Proof.
  intros W Hme. rewrite TryLock_cas_big_endian by assumption.
  destruct (head t =? u32 (me + 1)) eqn:E1;
    destruct (tail t =? me) eqn:E2; simpl;
    do 4 eexists; (split; [reflexivity|]);
    repeat split; try congruence; try reflexivity.
  apply Z.eqb_eq in E1, E2. congruence.
Qed.

End TicketClaims.

(** ** Array lock *)

Section ALockFacts.
Import ALock.

Lemma store_flag_in_range i v (fl : list Z) :
  0 <= i < Z.of_nat (length fl) ->
  store_flag i v fl = Some (<[Z.to_nat i := v]> fl).
Proof.
  intros H. unfold store_flag. case_decide; [reflexivity | lia].
Qed.

Lemma store_flag_length i v (fl fl' : list Z) :
  store_flag i v fl = Some fl' -> length fl' = length fl.
Proof.
  unfold store_flag. case_decide; [|discriminate].
  intros [= <-]. apply length_insert.
Qed.

(** A fresh array of zeros with the first flag set has that flag open
    and no other. *)
Lemma only_open_fresh (n : nat) :
  (0 < n)%nat -> only_open 0 (<[0%nat := 1]> (replicate n 0)).
Proof.
  intros Hn. split.
  - rewrite length_insert, length_replicate. lia.
  - intros j v Hj. change (Z.to_nat 0) with 0%nat.
    destruct (decide (j = 0%nat)) as [->|Hne].
    + rewrite list_lookup_insert_eq in Hj by (rewrite length_replicate; lia).
      injection Hj as <-. now split.
    + rewrite list_lookup_insert_ne in Hj by congruence.
      apply lookup_replicate in Hj as [-> _]. split; [discriminate | contradiction].
Qed.

(** Closing the one open flag and opening another leaves that other
    one open and no other. *)
Lemma only_open_hand_off (fl : list Z) (i k : Z) :
  only_open i fl -> 0 <= k < Z.of_nat (length fl) ->
  only_open k (<[Z.to_nat k := 1]> (<[Z.to_nat i := 0]> fl)).
Proof.
  intros [Hi Ho] Hk. split.
  - now rewrite !length_insert.
  - intros j v Hj.
    destruct (decide (j = Z.to_nat k)) as [->|Hne].
    + rewrite list_lookup_insert_eq in Hj by (rewrite length_insert; lia).
      injection Hj as <-. now split.
    + rewrite list_lookup_insert_ne in Hj by congruence.
      destruct (decide (j = Z.to_nat i)) as [->|Hni].
      * rewrite list_lookup_insert_eq in Hj by lia.
        injection Hj as <-. split; [discriminate | contradiction].
      * rewrite list_lookup_insert_ne in Hj by congruence.
        apply Ho in Hj. split; [|contradiction].
        intros Hv. apply Hj in Hv. contradiction.
Qed.

Lemma Lock_wait_flags fuel : forall al slot al',
  Lock_wait fuel al slot = Returns al' -> al' = al.
Proof.
  induction fuel as [|fuel IH]; intros al slot al'; simpl; [discriminate|].
  destruct (load_flag slot (flags (share al))) as [v|]; [|discriminate].
  destruct (v =? 0); [apply IH | now intros [= <-]].
Qed.

Lemma Lock_wait_closed fuel : forall al slot,
  load_flag slot (flags (share al)) = Some 0 ->
  Lock_wait fuel al slot = Spins.
Proof.
  induction fuel as [|fuel IH]; intros al slot H; simpl; [reflexivity|].
  rewrite H. simpl. now apply IH.
Qed.

(** The slot of each arrival: the value of [tail] after the increment,
    reduced modulo the size. *)
Lemma Lock_slots_lookup (k : nat) : forall (al : ArrayLock) (i : nat),
  size (share al) <> 0 -> (i < k)%nat ->
  Lock_slots k al !! i =
  Some (u32 (tail (share al) + Z.of_nat i + 1) mod size (share al)).
Proof.
  induction k as [|k IH]; intros al i Hs Hi; [lia|].
  simpl. unfold Lock_enqueue.
  destruct (size (share al) =? 0) eqn:E; [apply Z.eqb_eq in E; contradiction|].
  destruct i as [|i]; simpl.
  - now rewrite Z.add_0_r.
  - rewrite IH by (simpl; first [assumption | lia]). simpl.
    do 2 f_equal. unfold u32.
    rewrite <- Z.add_assoc, Z.add_mod_idemp_l by lia.
    f_equal. lia.
Qed.

End ALockFacts.

Section ALockClaims.
Import ALock.

(** The case in which [myIndex] still is the slot of the holder, as it
    is when no other goroutine has called [Lock] or [TryLock] since the
    holder did: construction gives a state where exactly flag 0 is
    open; from a state where exactly the flag of slot [i] is open and
    [myIndex] is [i], [Unlock] gives a state where exactly the flag of
    slot [(i + 1) mod N] is open, with [tail] and every other flag as
    before; [Lock] and [TryLock] write no flag. *)
Lemma exactly_one_flag_open (N : Z) (al : ArrayLock) (i : Z) :
  0 < N < 2 ^ 32 ->
  size (share al) = N ->
  Z.of_nat (length (flags (share al))) = N ->
  myIndex al = i ->
  only_open i (flags (share al)) ->
  (exists al0,
     NewArrayLock N = Returns al0 /\
     only_open 0 (flags (share al0)) /\
     Z.of_nat (length (flags (share al0))) = N /\
     size (share al0) = N /\ tail (share al0) = 0) /\
  (exists al',
     Unlock al = Returns al' /\
     only_open ((i + 1) mod N) (flags (share al')) /\
     tail (share al') = tail (share al) /\
     size (share al') = N /\
     length (flags (share al')) = length (flags (share al)) /\
     forall j : nat,
       j <> Z.to_nat i -> j <> Z.to_nat ((i + 1) mod N) ->
       flags (share al') !! j = flags (share al) !! j) /\
  (forall fuel al',
     Lock fuel al = Returns al' -> flags (share al') = flags (share al)) /\
  (forall ok al',
     TryLock al = Returns (ok, al') -> flags (share al') = flags (share al)).
Proof.
  intros HN Hsize Hlen Hidx Hopen.
  split; [|split; [|split]].
  - unfold NewArrayLock.
    rewrite store_flag_in_range by (rewrite length_replicate; lia).
    eexists. split; [reflexivity|]. simpl. change (Z.to_nat 0) with 0%nat.
    split; [apply only_open_fresh; lia|].
    rewrite length_insert, length_replicate. repeat split; lia.
  - destruct Hopen as [Hi Ho].
    assert (Hk : 0 <= (i + 1) mod N < Z.of_nat (length (flags (share al))))
      by (rewrite Hlen; apply Z.mod_pos_bound; lia).
    unfold Unlock. rewrite Hidx, Hsize.
    rewrite store_flag_in_range by assumption.
    destruct (N =? 0) eqn:E; [apply Z.eqb_eq in E; lia|].
    rewrite (u32_id (i + 1)) by (unfold is_u32; lia).
    rewrite store_flag_in_range by (rewrite length_insert; assumption).
    eexists. split; [reflexivity|]. simpl.
    split; [apply only_open_hand_off; [split|]; assumption|].
    rewrite !length_insert. repeat split.
    intros j Hj1 Hj2.
    now rewrite !list_lookup_insert_ne by congruence.
  - intros fuel al'. unfold Lock, Lock_enqueue. rewrite Hsize.
    destruct (N =? 0); [discriminate|].
    intros H. apply Lock_wait_flags in H. now subst al'.
  - intros ok al'. unfold TryLock, TryLock_cas. rewrite Hsize.
    destruct (N =? 0); [discriminate|].
    destruct (load_flag _ _) as [v|]; [|discriminate].
    destruct (v =? 1); [rewrite Z.eqb_refl|]; now intros [= <- <-].
Qed.

Lemma exactly_one_flag_open_witness :
  let al := {| share := {| flags := [0; 0; 1]; tail := 7; size := 3 |};
               myIndex := 2 |} in
  NewArrayLock 3 =
    Returns {| share := {| flags := [1; 0; 0]; tail := 0; size := 3 |};
               myIndex := 0 |} /\
  exists al',
    Unlock al = Returns al' /\
    only_open ((2 + 1) mod 3) (flags (share al')) /\
    tail (share al') = 7.
Proof.
  intros al.
  assert (Hopen : only_open 2 (flags (share al))).
  { split; [simpl; lia|]. intros [|[|[|j]]] v; simpl; intros [= <-];
      split; (discriminate || reflexivity || lia). }
  destruct (exactly_one_flag_open 3 al 2 ltac:(lia) eq_refl eq_refl eq_refl Hopen)
    as ((al0 & Hn & _) & (al' & Hu & Ho & Ht & _) & _).
  split; [reflexivity|].
  exists al'. split; [exact Hu|]. split; [exact Ho | exact Ht].
Defined.

(** [Unlock] takes the slot to close from [myIndex].  When that is not
    the slot [i] whose flag is open, the flag of [i] stays open and the
    flag after [myIndex] is opened as well: no single flag is the open
    one any more. *)
Lemma Unlock_foreign_myIndex (N : Z) (al : ArrayLock) (i j : Z) :
  0 < N < 2 ^ 32 ->
  size (share al) = N ->
  Z.of_nat (length (flags (share al))) = N ->
  only_open i (flags (share al)) ->
  myIndex al = j -> 0 <= j < N ->
  j <> i -> (j + 1) mod N <> i ->
  exists al',
    Unlock al = Returns al' /\
    (exists v, load_flag i (flags (share al')) = Some v /\ is_open v = true) /\
    load_flag ((j + 1) mod N) (flags (share al')) = Some 1 /\
    forall k, ~ only_open k (flags (share al')).
Proof.
  intros HN Hsize Hlen [Hi Ho] Hidx Hj Hji Hki.
  assert (Hk : 0 <= (j + 1) mod N < N) by (apply Z.mod_pos_bound; lia).
  destruct (lookup_lt_is_Some_2 (flags (share al)) (Z.to_nat i) ltac:(lia))
    as [v Hv].
  assert (Hopen : is_open v = true) by (now apply (Ho (Z.to_nat i) v)).
  unfold Unlock. rewrite Hidx, Hsize.
  rewrite store_flag_in_range by lia.
  destruct (N =? 0) eqn:E; [apply Z.eqb_eq in E; lia|].
  rewrite (u32_id (j + 1)) by (unfold is_u32; lia).
  rewrite store_flag_in_range by (rewrite length_insert; lia).
  eexists. split; [reflexivity|]. cbn [share flags].
  assert (H1 : load_flag i (<[Z.to_nat ((j + 1) mod N) := 1]>
                             (<[Z.to_nat j := 0]> (flags (share al)))) = Some v).
  { unfold load_flag. rewrite !list_lookup_insert_ne by lia. exact Hv. }
  assert (H2 : load_flag ((j + 1) mod N)
                 (<[Z.to_nat ((j + 1) mod N) := 1]>
                    (<[Z.to_nat j := 0]> (flags (share al)))) = Some 1).
  { unfold load_flag. apply list_lookup_insert_eq. rewrite length_insert. lia. }
  split; [eauto|]. split; [exact H2|].
  intros k [_ Hk'].
  pose proof (proj1 (Hk' _ _ H1) Hopen) as E1.
  pose proof (proj1 (Hk' _ _ H2) eq_refl) as E2.
  lia.
Qed.

(** C7.  Construction gives a state where exactly flag 0 is open, and
    [Unlock] by the holder of slot [i] should close flag [i] and open
    flag [(i + 1) mod N] and nothing else, so that one flag is open at
    any time.  The source keeps the holder's slot in [myIndex] of the
    one [ArrayLock] that all goroutines use, and [Lock] writes
    [myIndex] before it waits.  On a new lock of capacity 4: a
    goroutine takes slot 0 by [TryLock]; another calls [Lock], which
    sets [myIndex] to 2 and waits; the [Unlock] of the first then
    closes flag 2 and opens flag 3: the flags are 1, 0, 0, 1, flag 0 is
    still open, flag 1 is not, and no flag is the only open one. *)
Theorem Unlock_shared_myIndex_divergence :
  exists al0 al1 al2 al3,
    NewArrayLock 4 = Returns al0 /\
    only_open 0 (flags (share al0)) /\
    TryLock al0 = Returns (true, al1) /\
    myIndex al1 = 0 /\ flags (share al1) = [1; 0; 0; 0] /\
    Lock_enqueue al1 = Returns (al2, 2) /\
    (forall fuel, Lock fuel al1 = Spins) /\
    myIndex al2 = 2 /\ flags (share al2) = [1; 0; 0; 0] /\
    Unlock al2 = Returns al3 /\
    flags (share al3) = [1; 0; 0; 1] /\
    ~ only_open ((0 + 1) mod 4) (flags (share al3)) /\
    forall k, ~ only_open k (flags (share al3)).
Proof.
  do 4 eexists.
  split; [reflexivity|].
  split; [apply (only_open_fresh 4); lia|].
  split; [reflexivity|]. split; [reflexivity|]. split; [reflexivity|].
  split; [reflexivity|].
  split; [intros fuel; unfold Lock; simpl; now apply Lock_wait_closed|].
  split; [reflexivity|]. split; [reflexivity|]. split; [reflexivity|].
  split; [reflexivity|].
  assert (Hno : forall k, ~ only_open k [1; 0; 0; 1]).
  { intros k [_ Hk].
    pose proof (proj1 (Hk 0%nat 1 eq_refl) eq_refl) as E0.
    pose proof (proj1 (Hk 3%nat 1 eq_refl) eq_refl) as E3.
    lia. }
  split; [apply Hno | exact Hno].
Qed.

(** C2.  [Lock] should hand the [k]-th arrival slot [(k - 1) mod N], so
    that the first arrival at a new lock gets slot 0, the open one.  The
    source reduces the value [atomic.AddUint32] returns, which is [tail]
    after the increment: on a new lock of capacity 4 the arrivals get
    slots 1, 2, 3, 0, 1; the first waits on flag 1, which is closed and
    which no goroutine is going to open, and never returns; [TryLock],
    which takes [tail] before the increment, gets slot 0 and succeeds. *)
Theorem Lock_first_slot_divergence :
  exists al,
    NewArrayLock 4 = Returns al /\
    Lock_slots 5 al = [1; 2; 3; 0; 1] /\
    (exists al', Lock_enqueue al = Returns (al', 1) /\
                 flags (share al') = [1; 0; 0; 0] /\
                 load_flag 1 (flags (share al')) = Some 0) /\
    (forall fuel, Lock fuel al = Spins) /\
    (exists al', TryLock al = Returns (true, al') /\ myIndex al' = 0).
Proof.
  eexists. split; [reflexivity|]. split; [reflexivity|].
  split; [eexists; repeat split|]. split.
  - intros fuel. unfold Lock. simpl. now apply Lock_wait_closed.
  - eexists. split; reflexivity.
Qed.

(** What the code does for every capacity: the [k]-th of [k] arrivals
    at a new lock gets slot [k mod N]. *)
Lemma Lock_kth_slot (N : Z) (k : nat) (al : ArrayLock) :
  0 < N < 2 ^ 32 -> (0 < k)%nat -> Z.of_nat k < 2 ^ 32 ->
  NewArrayLock N = Returns al ->
  Lock_slots k al !! (k - 1)%nat = Some (Z.of_nat k mod N).
Proof.
  intros HN Hk Hk' Hnew. unfold NewArrayLock in Hnew.
  destruct (store_flag 0 1 _) as [fl|]; [|discriminate].
  injection Hnew as <-.
  rewrite Lock_slots_lookup by (simpl; lia). simpl.
  rewrite u32_id by (unfold is_u32; lia). do 2 f_equal. lia.
Qed.

End ALockClaims.

(** ** MCS lock *)

Section MCSFacts.
Import MCS.

Lemma store_next_lookup n v (h h' : nodes) q :
  h !! n = Some q ->
  store_next n v h = Some h' ->
  h' !! n = Some {| next := v; waiting := waiting q |} /\
  forall m, m <> n -> h' !! m = h !! m.
Proof.
  unfold store_next. intros ->. intros [= <-]. split.
  - apply lookup_insert_eq.
  - intros m Hm. now apply lookup_insert_ne.
Qed.

Lemma store_waiting_lookup n v (h h' : nodes) q :
  h !! n = Some q ->
  store_waiting n v h = Some h' ->
  h' !! n = Some {| next := next q; waiting := v |} /\
  forall m, m <> n -> h' !! m = h !! m.
Proof.
  unfold store_waiting. intros ->. intros [= <-]. split.
  - apply lookup_insert_eq.
  - intros m Hm. now apply lookup_insert_ne.
Qed.

(** [TryLock] on a node that exists, in full. *)
Lemma TryLock_unfold n q (h : nodes) l :
  h !! n = Some q ->
  TryLock (Some n) h l =
  let h' := <[n := {| next := None; waiting := waiting q |}]> h in
  match tail l with
  | None => Returns (true, h', {| tail := Some n |},
                     [EvStoreNext n None; EvCASTail None (Some n) true])
  | Some _ => Returns (false, h', l,
                       [EvStoreNext n None; EvCASTail None (Some n) false])
  end.
Proof.
  intros Hn. unfold TryLock, store_next, CompareAndSwap. rewrite Hn.
  destruct (tail l) as [p|] eqn:E; case_decide; try congruence; reflexivity.
Qed.

End MCSFacts.

Section MCSClaims.
Import MCS.

(** C4.  [TryLock node] makes one compare-and-swap of [tail] from [nil]
    to [node] and returns true exactly when [tail] was [nil] at that
    moment; after a success [tail] is [node]; it does not spin. *)
Theorem MCS_TryLock_single_cas (n : loc) (q : QNode) (h : nodes) (l : lock) :
  h !! n = Some q ->
  exists ok h' l',
    TryLock (Some n) h l =
      Returns (ok, h', l', [EvStoreNext n None; EvCASTail None (Some n) ok]) /\
    (ok = true <-> tail l = None) /\
    (ok = true -> tail l' = Some n).
Proof.
  intros Hn. rewrite (TryLock_unfold n q) by assumption.
  destruct (tail l) as [p|] eqn:E; simpl; do 3 eexists;
    (split; [reflexivity|]); split; try split; try congruence; reflexivity.
Qed.

Lemma MCS_TryLock_single_cas_witness :
  let h : nodes := {[ 1%positive := {| next := Some 2%positive; waiting := 1 |} ]} in
  h !! 1%positive = Some {| next := Some 2%positive; waiting := 1 |} /\
  exists ok h' l',
    TryLock (Some 1%positive) h NewLock =
      Returns (ok, h', l',
               [EvStoreNext 1%positive None;
                EvCASTail None (Some 1%positive) ok]) /\
    (ok = true <-> tail NewLock = None) /\
    (ok = true -> tail l' = Some 1%positive).
Proof.
  intros h. split; [reflexivity|].
  apply (MCS_TryLock_single_cas 1%positive
           {| next := Some 2%positive; waiting := 1 |} h NewLock).
  reflexivity.
Defined.

(** C9.  [TryLock node] stores [nil] into [node.next] before the
    compare-and-swap, whether that then succeeds or fails, and writes
    nothing else of the node (nor of any other node). *)
Theorem MCS_TryLock_clears_next (n : loc) (q : QNode) (h : nodes) (l : lock) :
  h !! n = Some q ->
  exists ok h' l' evs,
    TryLock (Some n) h l = Returns (ok, h', l', EvStoreNext n None :: evs) /\
    (tail l <> None -> ok = false) /\
    h' !! n = Some {| next := None; waiting := waiting q |} /\
    (forall m, m <> n -> h' !! m = h !! m).
Proof.
  intros Hn. rewrite (TryLock_unfold n q) by assumption.
  destruct (tail l) as [p|] eqn:E; simpl; do 4 eexists;
    (split; [reflexivity|]); (split; [congruence|]);
    (split; [apply lookup_insert_eq|]);
    intros m Hm; now apply lookup_insert_ne.
Qed.

Lemma MCS_TryLock_clears_next_witness :
  let h : nodes :=
    <[ 1%positive := {| next := Some 2%positive; waiting := 1 |} ]>
      {[ 2%positive := {| next := None; waiting := 0 |} ]} in
  let l := {| tail := Some 2%positive |} in
  h !! 1%positive = Some {| next := Some 2%positive; waiting := 1 |} /\
  exists ok h' l' evs,
    TryLock (Some 1%positive) h l =
      Returns (ok, h', l', EvStoreNext 1%positive None :: evs) /\
    (tail l <> None -> ok = false) /\
    h' !! 1%positive = Some {| next := None; waiting := 1 |} /\
    (forall m, m <> 1%positive -> h' !! m = h !! m).
Proof.
  intros h l. split; [reflexivity|].
  apply (MCS_TryLock_clears_next 1%positive
           {| next := Some 2%positive; waiting := 1 |} h l).
  reflexivity.
Defined.

(** C5.  [Unlock node] by cases on [node.next]: with a successor it
    stores 0 into the successor's [waiting] and leaves [tail] as it is;
    with none, and [tail] still [node], the compare-and-swap of [tail]
    from [node] to [nil] succeeds and [IsFree] is true afterwards. *)
Theorem MCS_Unlock_cases (fuel : nat) (n : loc) (q : QNode) (h : nodes)
    (l : lock) :
  h !! n = Some q ->
  (forall succ qs,
     next q = Some succ -> h !! succ = Some qs ->
     exists h',
       Unlock fuel (Some n) h l = Returns (h', l) /\
       h' !! succ = Some {| next := next qs; waiting := 0 |} /\
       forall m, m <> succ -> h' !! m = h !! m) /\
  (next q = None -> tail l = Some n ->
   exists l',
     Unlock fuel (Some n) h l = Returns (h, l') /\
     tail l' = None /\ IsFree l' = true).
Proof.
  intros Hn. split.
  - intros succ qs Hq Hs. unfold Unlock. rewrite Hn, Hq.
    destruct (store_waiting succ 0 h) as [h'|] eqn:E.
    + exists h'. split; [reflexivity|]. now apply (store_waiting_lookup succ 0 h).
    + unfold store_waiting in E. rewrite Hs in E. discriminate.
  - intros Hq Ht. unfold Unlock, CompareAndSwap. rewrite Hn, Hq.
    case_decide; [|contradiction].
    eexists. split; [reflexivity|]. split; reflexivity.
Qed.

Lemma MCS_Unlock_cases_witness :
  let q1 := {| next := Some 2%positive; waiting := 0 |} in
  let q2 := {| next := None; waiting := 1 |} in
  let h : nodes := <[ 1%positive := q1 ]> {[ 2%positive := q2 ]} in
  (exists h',
     Unlock 0 (Some 1%positive) h {| tail := Some 2%positive |} =
       Returns (h', {| tail := Some 2%positive |}) /\
     h' !! 2%positive = Some {| next := None; waiting := 0 |} /\
     forall m, m <> 2%positive -> h' !! m = h !! m) /\
  (exists l',
     Unlock 0 (Some 2%positive) h {| tail := Some 2%positive |} =
       Returns (h, l') /\
     tail l' = None /\ IsFree l' = true).
Proof.
  intros q1 q2 h. split.
  - apply (MCS_Unlock_cases 0 1%positive q1 h {| tail := Some 2%positive |}
             eq_refl) with (qs := q2); reflexivity.
  - apply (MCS_Unlock_cases 0 2%positive q2 h {| tail := Some 2%positive |}
             eq_refl); reflexivity.
Defined.

End MCSClaims.

(** ** All three locks *)

(** C3.  When [TryLock] returns false the shared state of the lock is
    what it was: the head/tail word of the ticket lock, the flags and
    [tail] of the array lock, the [tail] pointer of the MCS lock.  For
    the ticket lock and the array lock this holds whatever the values
    read before the compare-and-swap were. *)
Theorem TryLock_false_leaves_state
    (bo : Ticket.ByteOrder) (me : Z) (t t' : Ticket.lock)
    (tevs : list Ticket.event)
    (tail0 flag : Z) (al al' al'' : ALock.ArrayLock)
    (node : MCS.ptr) (h h' : MCS.nodes) (l l' : MCS.lock)
    (mevs : list MCS.event) :
  (Ticket.TryLock_cas bo me t = (false, t', tevs) ->
   t' = t /\ Ticket.word_of bo t' = Ticket.word_of bo t) /\
  (Ticket.TryLock bo t = (false, t', tevs) -> t' = t) /\
  (ALock.TryLock_cas tail0 flag al = (false, al') ->
   ALock.flags (ALock.share al') = ALock.flags (ALock.share al) /\
   ALock.tail (ALock.share al') = ALock.tail (ALock.share al)) /\
  (ALock.TryLock al = Returns (false, al'') ->
   ALock.flags (ALock.share al'') = ALock.flags (ALock.share al) /\
   ALock.tail (ALock.share al'') = ALock.tail (ALock.share al)) /\
  (MCS.TryLock node h l = Returns (false, h', l', mevs) ->
   MCS.tail l' = MCS.tail l).
Proof.
  assert (HT : forall me0, Ticket.TryLock_cas bo me0 t = (false, t', tevs) -> t' = t).
  { intros me0. unfold Ticket.TryLock_cas, Ticket.CompareAndSwapUint64.
    destruct (Ticket.word_of bo t =? _); [discriminate | now intros [= <- _]]. }
  assert (HA : forall t0 f a', ALock.TryLock_cas t0 f al = (false, a') -> a' = al).
  { intros t0 f a'. unfold ALock.TryLock_cas.
    destruct (f =? 1); [destruct (_ =? t0); [discriminate|]|];
      now intros [= <-]. }
  split; [|split; [|split; [|split]]].
  - intros H. apply HT in H. now subst t'.
  - apply HT.
  - intros H. apply HA in H. now subst al'.
  - unfold ALock.TryLock.
    destruct (ALock.size (ALock.share al) =? 0); [discriminate|].
    destruct (ALock.load_flag _ _) as [v|]; [|discriminate].
    intros [= H]. apply HA in H. now subst al''.
  - unfold MCS.TryLock, MCS.CompareAndSwap.
    destruct node as [n|]; [|discriminate].
    destruct (MCS.store_next n None h); [|discriminate].
    case_decide; [discriminate | now intros [= _ <- _]].
Qed.

Lemma TryLock_false_leaves_state_witness :
  let t := {| Ticket.head := 1; Ticket.tail := 1 |} in
  let tevs := [Ticket.EvCAS (pack64 2 1) (pack64 2 2) false] in
  let al := {| ALock.share := {| ALock.flags := [0; 1; 0]; ALock.tail := 3;
                                 ALock.size := 3 |};
               ALock.myIndex := 1 |} in
  let q := {| MCS.next := Some 3%positive; MCS.waiting := 0 |} in
  let h : MCS.nodes := {[ 1%positive := q ]} in
  let h' : MCS.nodes := {[ 1%positive := {| MCS.next := None; MCS.waiting := 0 |} ]} in
  let l := {| MCS.tail := Some 2%positive |} in
  let mevs := [MCS.EvStoreNext 1%positive None;
               MCS.EvCASTail None (Some 1%positive) false] in
  (t = t /\ Ticket.word_of Ticket.BigEndian t = Ticket.word_of Ticket.BigEndian t) /\
  t = t /\
  (ALock.flags (ALock.share al) = [0; 1; 0] /\ ALock.tail (ALock.share al) = 3) /\
  (ALock.flags (ALock.share al) = [0; 1; 0] /\ ALock.tail (ALock.share al) = 3) /\
  MCS.tail l = Some 2%positive.
Proof.
  intros t tevs al q h h' l mevs.
  destruct (TryLock_false_leaves_state Ticket.BigEndian 1 t t tevs
              3 0 al al al (Some 1%positive) h h' l l mevs)
    as (H1 & H2 & H3 & H4 & H5).
  split; [apply H1; reflexivity|].
  split; [apply H2; reflexivity|].
  split; [apply H3; reflexivity|].
  split; [apply H4; reflexivity|].
  apply H5. reflexivity.
Defined.

(** C8.  A new lock that was never locked says it is free: the ticket
    lock starts with [head = 1] and [tail = 0], for which [isFree] is
    true; the MCS lock starts with [tail = nil], for which [IsFree] is
    true. *)
Theorem fresh_locks_are_free :
  Ticket.head Ticket.NewLock = 1 /\
  Ticket.tail Ticket.NewLock = 0 /\
  Ticket.isFree Ticket.NewLock = true /\
  MCS.tail MCS.NewLock = None /\
  MCS.IsFree MCS.NewLock = true.
Proof. repeat split. Qed.

(** * Further properties *)

(** Arithmetic modulo [2^32], by elimination of the divisions. *)
Ltac u32_lia :=
  unfold u32, is_u32 in *;
  change (2 ^ 32) with 4294967296 in *;
  Z.to_euclidean_division_equations; lia.

(** ** Ticket lock, one goroutine *)

Section TicketSequential.
Import Ticket.

Lemma isFree_head_tail (t : lock) :
  wf t -> (isFree t = true <-> head t = u32 (tail t + 1)).
Proof.
  intros [Hh Ht]. unfold isFree. rewrite Z.eqb_eq. split; intros H; u32_lia.
Qed.

(** The lock is free exactly when [head] is one ahead of [tail], the
    counters taken modulo [2^32]. *)
Theorem isFree_iff (t : lock) :
  wf t -> (isFree t = true <-> head t = u32 (tail t + 1)).
Proof.
  intros W. split; intros H.
  - now apply isFree_head_tail.
  - now apply isFree_head_tail.
Qed.

Lemma isFree_iff_witness :
  wf {| head := 0; tail := 4294967295 |} /\
  (isFree {| head := 0; tail := 4294967295 |} = true <->
   0 = u32 (4294967295 + 1)).
Proof.
  split; [split; unfold is_u32; simpl; lia|].
  apply (isFree_iff {| head := 0; tail := 4294967295 |}).
  split; unfold is_u32; simpl; lia.
Defined.

Lemma Lock_Unlock_round_trip (t : lock) (heads : list Z) :
  wf t -> isFree t = true ->
  exists t1,
    Lock (head t :: heads) t = (t1, [], Returns tt) /\
    isFree t1 = false /\
    Unlock t1 = {| head := u32 (head t + 1); tail := u32 (tail t + 1) |} /\
    wf (Unlock t1) /\
    isFree (Unlock t1) = true.
Proof.
  intros W F. pose proof W as [Hh Ht].
  apply isFree_head_tail in F; [|assumption].
  exists {| head := head t; tail := u32 (tail t + 1) |}.
  assert (W' : wf {| head := u32 (head t + 1); tail := u32 (tail t + 1) |})
    by (split; apply u32_range).
  split; [|split; [|split; [|split]]].
  - unfold Lock. rewrite F at 1. now rewrite Z.eqb_refl.
  - unfold isFree. simpl. apply Z.eqb_neq. u32_lia.
  - reflexivity.
  - exact W'.
  - unfold Unlock. simpl. apply isFree_head_tail; [exact W'|]. simpl. u32_lia.
Qed.

(** [Lock] on a free lock returns at its first load of [head] without
    spinning or sleeping; the lock is then held; [Unlock] makes it free
    again, with [head] and [tail] both one further (modulo [2^32]). *)
Theorem Lock_Unlock_free (t : lock) (heads : list Z) :
  wf t -> isFree t = true ->
  exists t1,
    Lock (head t :: heads) t = (t1, [], Returns tt) /\
    isFree t1 = false /\
    Unlock t1 = {| head := u32 (head t + 1); tail := u32 (tail t + 1) |} /\
    wf (Unlock t1) /\
    isFree (Unlock t1) = true.
Proof.
  intros W F.
  destruct (Lock_Unlock_round_trip t heads W F) as (t1 & H).
  exists t1. exact H.
Qed.

Lemma Lock_Unlock_free_witness :
  let t := {| head := 0; tail := 4294967295 |} in
  exists t1,
    Lock [0; 7] t = (t1, [], Returns tt) /\
    isFree t1 = false /\
    Unlock t1 = {| head := u32 (0 + 1); tail := u32 (4294967295 + 1) |} /\
    wf (Unlock t1) /\
    isFree (Unlock t1) = true.
Proof.
  intros t.
  apply (Lock_Unlock_free t [7]).
  - split; unfold is_u32; simpl; lia.
  - reflexivity.
Defined.

Lemma Lock_loop_outcome myTicket heads : forall s,
  (Lock_loop myTicket heads s).2 =
  if decide (myTicket ∈ heads) then Returns tt else Spins.
Proof.
  induction heads as [|cur rest IH]; intros s.
  - simpl. destruct (decide (myTicket ∈ [])) as [H|H]; [|reflexivity].
    now apply elem_of_nil in H.
  - cbn [Lock_loop]. destruct (cur =? myTicket) eqn:E.
    + apply Z.eqb_eq in E. subst cur.
      destruct (decide (myTicket ∈ myTicket :: rest)) as [H|H]; [reflexivity|].
      exfalso. apply H. left.
    + apply Z.eqb_neq in E.
      destruct (Lock_probe myTicket cur s) as [s' ev].
      specialize (IH s'). destruct (Lock_loop myTicket rest s') as [evs o].
      cbn [snd] in *. rewrite IH.
      destruct (decide (myTicket ∈ rest)) as [H|H];
        destruct (decide (myTicket ∈ cur :: rest)) as [H'|H']; try reflexivity.
      * exfalso. apply H'. now right.
      * exfalso. apply elem_of_cons in H' as [->|]; [now apply E | contradiction].
Qed.

(** [Lock] takes the next ticket whatever happens afterwards, never
    writes [head], and returns exactly when one of its loads of [head]
    gives its ticket; until then it is still waiting. *)
Theorem Lock_returns_iff_served (t : lock) (heads : list Z) :
  (Lock heads t).1.1 = {| head := head t; tail := u32 (tail t + 1) |} /\
  (Lock heads t).2 =
    if decide (u32 (tail t + 1) ∈ heads) then Returns tt else Spins.
Proof.
  unfold Lock. set (k := u32 (tail t + 1)). destruct heads as [|cur rest].
  - split; [reflexivity|]. cbn [snd].
    destruct (decide (k ∈ [])) as [H|H]; [|reflexivity].
    now apply elem_of_nil in H.
  - destruct (cur =? k) eqn:E.
    + split; [reflexivity|]. cbn [snd]. apply Z.eqb_eq in E. subst cur.
      destruct (decide (k ∈ k :: rest)) as [H|H]; [reflexivity|].
      exfalso. apply H. left.
    + apply Z.eqb_neq in E.
      pose proof (Lock_loop_outcome k rest
                    {| wait := ticketBaseWait; distancePrev := 1 |}) as H.
      destruct (Lock_loop k rest _) as [evs o]. cbn [fst snd] in *.
      split; [reflexivity|]. rewrite H.
      destruct (decide (k ∈ rest)) as [H1|H1];
        destruct (decide (k ∈ cur :: rest)) as [H2|H2]; try reflexivity.
      * exfalso. apply H2. now right.
      * exfalso. apply elem_of_cons in H2 as [->|]; [now apply E | contradiction].
Qed.

(** On a big-endian target and with no other goroutine in between,
    [TryLock] succeeds exactly when the lock is free; the lock is then
    held, a second [TryLock] fails, and after [Unlock] the lock is free
    and [TryLock] succeeds again. *)
Theorem TryLock_big_endian_exclusive (t : lock) :
  wf t ->
  (TryLock BigEndian t).1.1 = isFree t /\
  (isFree t = true ->
   let t1 := (TryLock BigEndian t).1.2 in
   t1 = {| head := head t; tail := u32 (tail t + 1) |} /\
   isFree t1 = false /\
   (TryLock BigEndian t1).1.1 = false /\
   isFree (Unlock t1) = true /\
   (TryLock BigEndian (Unlock t1)).1.1 = true).
Proof.
  intros W. pose proof W as [Hh Ht].
  assert (Hseq : forall t0, wf t0 -> (TryLock BigEndian t0).1.1 = isFree t0).
  { intros t0 W0. pose proof W0 as [Hh0 Ht0]. unfold TryLock.
    rewrite TryLock_cas_big_endian by assumption.
    rewrite Z.eqb_refl, andb_true_r.
    destruct (isFree t0) eqn:F.
    - apply isFree_head_tail in F; [|assumption]. rewrite <- F, Z.eqb_refl. reflexivity.
    - destruct (head t0 =? u32 (tail t0 + 1)) eqn:E; [|reflexivity].
      apply Z.eqb_eq in E. apply isFree_head_tail in E; [|assumption]. congruence. }
  split; [now apply Hseq|].
  intros F t1.
  assert (E1 : t1 = {| head := head t; tail := u32 (tail t + 1) |}).
  { unfold t1, TryLock. rewrite TryLock_cas_big_endian by assumption.
    apply isFree_head_tail in F; [|assumption].
    now rewrite <- F, !Z.eqb_refl. }
  destruct (Lock_Unlock_round_trip t [] W F) as (t1' & HL & HF1 & HU & HW & HF2).
  assert (t1' = t1) as ->.
  { rewrite E1. unfold Lock in HL.
    destruct (head t =? u32 (tail t + 1)); [now injection HL|].
    simpl in HL. now injection HL. }
  assert (W1 : wf t1) by (rewrite E1; split; [exact Hh | apply u32_range]).
  split; [exact E1|]. split; [exact HF1|].
  split; [now rewrite Hseq|]. split; [exact HF2|].
  now rewrite Hseq.
Qed.

Lemma TryLock_big_endian_exclusive_witness :
  (TryLock BigEndian NewLock).1.1 = isFree NewLock /\
  let t1 := (TryLock BigEndian NewLock).1.2 in
  t1 = {| head := 1; tail := u32 (0 + 1) |} /\
  isFree t1 = false /\
  (TryLock BigEndian t1).1.1 = false /\
  isFree (Unlock t1) = true /\
  (TryLock BigEndian (Unlock t1)).1.1 = true.
Proof.
  assert (W : wf NewLock) by (split; unfold is_u32; simpl; lia).
  destruct (TryLock_big_endian_exclusive NewLock W) as [H1 H2].
  split; [exact H1 | exact (H2 eq_refl)].
Defined.

(** On a little-endian target and with no other goroutine in between,
    [TryLock] fails and leaves the lock as it is, whether the lock is
    free or held. *)
Theorem TryLock_little_endian_always_fails (t : lock) :
  wf t ->
  (TryLock LittleEndian t).1.1 = false /\ (TryLock LittleEndian t).1.2 = t.
Proof.
  intros W. pose proof W as [Hh Ht]. unfold TryLock.
  rewrite TryLock_cas_little_endian by assumption.
  destruct (tail t =? u32 (tail t + 1)) eqn:E; simpl; [|now split].
  apply Z.eqb_eq in E. u32_lia.
Qed.

Lemma TryLock_little_endian_always_fails_witness :
  wf NewLock /\ isFree NewLock = true /\
  (TryLock LittleEndian NewLock).1.1 = false /\
  (TryLock LittleEndian NewLock).1.2 = NewLock.
Proof.
  assert (W : wf NewLock) by (split; unfold is_u32; simpl; lia).
  split; [exact W|]. split; [reflexivity|].
  exact (TryLock_little_endian_always_fails NewLock W).
Defined.

Lemma spec_loop_near myTicket heads :
  Forall (fun c => is_u32 c /\ Z.abs (c - myTicket) <= 20) heads ->
  Forall (fun e => exists n, e = EvBusySpin n /\ 5 <= n <= 200)
         (spec_loop myTicket heads).1.
Proof.
  induction heads as [|cur rest IH]; intros H; [constructor|].
  apply Forall_cons in H as [[Hc Hd] Hr]. cbn [spec_loop].
  destruct (cur =? myTicket) eqn:E; [constructor|].
  apply Z.eqb_neq in E. specialize (IH Hr).
  destruct (spec_loop myTicket rest) as [evs o]. cbn [fst] in *.
  apply Forall_app. split; [|exact IH].
  unfold spec_probe.
  assert (Hn : ~ 20 < Z.abs (cur - myTicket)) by lia.
  apply Z.ltb_nlt in Hn. rewrite Hn, app_nil_r.
  destruct (1 <? Z.abs (cur - myTicket)) eqn:E1.
  - apply Z.ltb_lt in E1. repeat constructor.
    eexists. split; [reflexivity|]. u32_lia.
  - apply Z.ltb_ge in E1.
    assert (Z.abs (cur - myTicket) = 1) as -> by lia.
    repeat constructor. eexists. split; [reflexivity|]. lia.
Qed.

(** While every value of [head] that [Lock] loads in its loop is at
    most 20 away from its ticket, [Lock] does nothing but spin, between
    5 and 200 turns for each load, and never sleeps. *)
Theorem Lock_spins_only_when_near (t : lock) (cur : Z) (heads : list Z) :
  Forall (fun c => is_u32 c /\ Z.abs (c - u32 (tail t + 1)) <= 20) heads ->
  Forall (fun e => exists n, e = EvBusySpin n /\ 5 <= n <= 200)
         (Lock (cur :: heads) t).1.2.
Proof.
  intros H. unfold Lock.
  destruct (cur =? u32 (tail t + 1)); [constructor|].
  rewrite Lock_loop_spec.
  - apply spec_loop_near in H.
    now destruct (spec_loop (u32 (tail t + 1)) heads).
  - apply u32_range.
  - eapply Forall_impl; [exact H|]. now intros c [Hc _].
  - reflexivity.
Qed.

Lemma Lock_spins_only_when_near_witness :
  Forall (fun e => exists n, e = EvBusySpin n /\ 5 <= n <= 200)
         (Lock [1; 1; 2; 20; 21] {| head := 1; tail := 20 |}).1.2.
Proof.
  apply (Lock_spins_only_when_near {| head := 1; tail := 20 |} 1 [1; 2; 20; 21]).
  repeat (apply Forall_cons; split;
          [split; [unfold is_u32; lia | vm_compute; discriminate]|]).
  constructor.
Defined.

(** The distance the loop works with is the difference of the two
    counters as numbers.  Once [tail] has wrapped around and [head] has
    not, a waiter with [n] tickets before it ([1 <= n], [10 * n] below
    [2^32]) finds distance [2^32 - n]: it spins [2^32 - 10 * n] turns
    and sleeps a millisecond at each load. *)
Theorem Lock_probe_across_wrap (myTicket cur n : Z) (s : spin_state) :
  is_u32 myTicket -> is_u32 cur -> myTicket < cur ->
  n = u32 (myTicket - cur) -> 10 * n < 2 ^ 32 ->
  subAbs cur myTicket = 2 ^ 32 - n /\
  (Lock_probe myTicket cur {| wait := ticketBaseWait; distancePrev := 1 |}).2 =
    [EvBusySpin (2 ^ 32 - 10 * n); EvSleep Millisecond] /\
  (wait s = ticketBaseWait ->
   (Lock_probe myTicket cur s).2 =
     [EvBusySpin (2 ^ 32 - 10 * n); EvSleep Millisecond]).
Proof.
  intros Ht Hc Hlt Hn Hn10.
  assert (Hd : subAbs cur myTicket = 2 ^ 32 - n).
  { rewrite subAbs_abs by assumption. subst n. u32_lia. }
  assert (Hn1 : 1 <= n) by (subst n; u32_lia).
  assert (Hspin : u32 ((2 ^ 32 - n) * 10) = 2 ^ 32 - 10 * n) by u32_lia.
  assert (Hgen : forall s0, wait s0 = ticketBaseWait ->
            (Lock_probe myTicket cur s0).2 =
            [EvBusySpin (2 ^ 32 - 10 * n); EvSleep Millisecond]).
  { intros s0 Hw. unfold Lock_probe. rewrite Hd.
    assert (E1 : (1 <? 2 ^ 32 - n) = true) by (apply Z.ltb_lt; u32_lia).
    assert (E2 : (20 <? 2 ^ 32 - n) = true) by (apply Z.ltb_lt; u32_lia).
    rewrite E1, E2.
    destruct (2 ^ 32 - n =? distancePrev s0); cbn [negb fst snd wait];
      rewrite ?Hw; unfold ticketBaseWait; now rewrite Hspin. }
  split; [exact Hd|]. split; [now apply Hgen | exact (Hgen s)].
Qed.

Lemma Lock_probe_across_wrap_witness :
  subAbs 4294967294 1 = 2 ^ 32 - 3 /\
  (Lock_probe 1 4294967294 {| wait := ticketBaseWait; distancePrev := 1 |}).2 =
    [EvBusySpin (2 ^ 32 - 10 * 3); EvSleep Millisecond].
Proof.
  destruct (Lock_probe_across_wrap 1 4294967294 3
              {| wait := ticketBaseWait; distancePrev := 1 |})
    as (H1 & H2 & _).
  - unfold is_u32; lia.
  - unfold is_u32; lia.
  - lia.
  - reflexivity.
  - lia.
  - split; [exact H1 | exact H2].
Defined.

End TicketSequential.

(** ** Ticket lock, many goroutines *)

Section TicketSystem.
Import TicketSys.

Lemma Inv_init : Inv init.
Proof.
  split; simpl.
  - split; unfold is_u32; simpl; lia.
  - rewrite map_size_empty. lia.
  - rewrite map_size_empty. reflexivity.
  - intros i p H. now rewrite lookup_empty in H.
  - intros i j p q H. now rewrite lookup_empty in H.
  - intros i k H. now rewrite lookup_empty in H.
  - rewrite map_size_empty. intros d Hd. lia.
Qed.

Lemma Inv_take (s : sys) (i : nat) :
  Inv s ->
  threads s !! i = None ->
  Z.of_nat (size (threads s)) + 1 < 2 ^ 32 ->
  Inv {| lk := (Ticket.Lock [] (lk s)).1.1;
         threads := <[i := Waiting (Ticket.tail (Ticket.Lock [] (lk s)).1.1)]>
                      (threads s) |}.
Proof.
  intros [[Hh Ht] Hb Hc Hw Hd Hcr Hg] Hi Hn.
  unfold ahead in *. cbn [Ticket.Lock fst snd lk threads Ticket.tail Ticket.head] in *.
  set (n := Z.of_nat (size (threads s))) in *.
  assert (Hsz : Z.of_nat (size (<[i := Waiting (u32 (Ticket.tail (lk s) + 1))]>
                                 (threads s))) = n + 1).
  { rewrite map_size_insert_None by assumption. unfold n. lia. }
  assert (Hnew : u32 (u32 (Ticket.tail (lk s) + 1) - Ticket.head (lk s)) = n)
    by u32_lia.
  split; unfold ahead; cbn [lk threads Ticket.tail Ticket.head]; rewrite ?Hsz.
  - split; [exact Hh | apply u32_range].
  - lia.
  - u32_lia.
  - intros j p Hj. destruct (decide (i = j)) as [<-|Hne].
    + rewrite lookup_insert_eq in Hj. injection Hj as <-. cbn [ticket_of].
      split; [apply u32_range | lia].
    + rewrite lookup_insert_ne in Hj by assumption.
      destruct (Hw j p Hj). split; [assumption | lia].
  - intros j1 j2 p q H1 H2 He.
    destruct (decide (i = j1)) as [<-|N1]; destruct (decide (i = j2)) as [<-|N2];
      try reflexivity.
    + rewrite lookup_insert_eq in H1. injection H1 as <-.
      rewrite lookup_insert_ne in H2 by assumption.
      destruct (Hw j2 q H2) as [_ Hlt]. cbn [ticket_of] in He.
      rewrite <- He in Hlt. lia.
    + rewrite lookup_insert_eq in H2. injection H2 as <-.
      rewrite lookup_insert_ne in H1 by assumption.
      destruct (Hw j1 p H1) as [_ Hlt]. cbn [ticket_of] in He.
      rewrite He in Hlt. lia.
    + rewrite lookup_insert_ne in H1, H2 by assumption. eauto.
  - intros j k Hj. destruct (decide (i = j)) as [<-|Hne].
    + rewrite lookup_insert_eq in Hj. discriminate.
    + rewrite lookup_insert_ne in Hj by assumption. eauto.
  - intros d Hd'. destruct (decide (d = n)) as [->|Hne].
    + exists i, (Waiting (u32 (Ticket.tail (lk s) + 1))).
      rewrite lookup_insert_eq. split; [reflexivity | exact Hnew].
    + destruct (Hg d ltac:(lia)) as (j & p & Hj & Hp).
      exists j, p. split; [|exact Hp].
      rewrite lookup_insert_ne; [exact Hj | congruence].
Qed.

Lemma Inv_enter (s : sys) (i : nat) (k : Z) :
  Inv s ->
  threads s !! i = Some (Waiting k) ->
  (Ticket.head (lk s) =? k) = true ->
  Inv {| lk := lk s; threads := <[i := Critical k]> (threads s) |}.
Proof.
  intros [W Hb Hc Hw Hd Hcr Hg] Hi Hk. apply Z.eqb_eq in Hk.
  unfold ahead in *.
  assert (Hsz : size (<[i := Critical k]> (threads s)) = size (threads s))
    by (apply map_size_insert_Some; eauto).
  split; unfold ahead; cbn [lk threads]; rewrite ?Hsz; try assumption.
  - intros j p Hj. destruct (decide (i = j)) as [<-|Hne].
    + rewrite lookup_insert_eq in Hj. injection Hj as <-.
      exact (Hw i _ Hi).
    + rewrite lookup_insert_ne in Hj by assumption. eauto.
  - intros j1 j2 p q H1 H2 He.
    destruct (decide (i = j1)) as [<-|N1]; destruct (decide (i = j2)) as [<-|N2];
      try reflexivity.
    + rewrite lookup_insert_eq in H1. injection H1 as <-.
      rewrite lookup_insert_ne in H2 by assumption.
      exact (Hd i j2 _ q Hi H2 He).
    + rewrite lookup_insert_eq in H2. injection H2 as <-.
      rewrite lookup_insert_ne in H1 by assumption.
      exact (Hd j1 i p _ H1 Hi He).
    + rewrite lookup_insert_ne in H1, H2 by assumption. eauto.
  - intros j k' Hj. destruct (decide (i = j)) as [<-|Hne].
    + rewrite lookup_insert_eq in Hj. injection Hj as <-. now symmetry.
    + rewrite lookup_insert_ne in Hj by assumption. eauto.
  - intros d Hd'. destruct (Hg d Hd') as (j & p & Hj & Hp).
    destruct (decide (i = j)) as [<-|Hne].
    + exists i, (Critical k). rewrite lookup_insert_eq.
      rewrite Hi in Hj. injection Hj as <-. split; [reflexivity | exact Hp].
    + exists j, p. rewrite lookup_insert_ne by assumption. now split.
Qed.

Lemma Inv_release (s : sys) (i : nat) (k : Z) :
  Inv s ->
  threads s !! i = Some (Critical k) ->
  Inv {| lk := Ticket.Unlock (lk s); threads := delete i (threads s) |}.
Proof.
  intros [[Hh Ht] Hb Hc Hw Hd Hcr Hg] Hi.
  unfold ahead in *.
  set (n := Z.of_nat (size (threads s))) in *.
  assert (Hk : k = Ticket.head (lk s)) by eauto.
  destruct (Hw i _ Hi) as [Hku Hk0]. cbn [ticket_of] in Hku, Hk0.
  assert (Hsz : Z.of_nat (size (delete i (threads s))) = n - 1).
  { rewrite map_size_delete_Some by eauto. unfold n.
    assert (size (threads s) <> 0%nat); [|lia].
    intros E. apply map_size_empty_inv in E. rewrite E in Hi.
    now rewrite lookup_empty in Hi. }
  assert (Hother : forall j p, i <> j -> threads s !! j = Some p ->
            is_u32 (ticket_of p) /\
            1 <= u32 (ticket_of p - Ticket.head (lk s)) < n).
  { intros j p Hne Hj. destruct (Hw j p Hj) as [Hu Hlt].
    split; [exact Hu|]. split; [|exact Hlt].
    assert (ticket_of p <> k).
    { intros E. apply Hne. symmetry. exact (Hd j i p _ Hj Hi E). }
    subst k. u32_lia. }
  split; unfold ahead; cbn [lk threads Ticket.Unlock Ticket.tail Ticket.head];
    rewrite ?Hsz.
  - split; [apply u32_range | exact Ht].
  - lia.
  - u32_lia.
  - intros j p Hj. apply lookup_delete_Some in Hj as [Hne Hj].
    destruct (Hother j p Hne Hj) as [Hu Hr]. split; [exact Hu|]. u32_lia.
  - intros j1 j2 p q H1 H2 He.
    apply lookup_delete_Some in H1 as [_ H1].
    apply lookup_delete_Some in H2 as [_ H2]. eauto.
  - intros j k' Hj. apply lookup_delete_Some in Hj as [Hne Hj].
    exfalso. apply Hne. symmetry.
    apply (Hd j i _ _ Hj Hi). cbn [ticket_of].
    rewrite (Hcr j k' Hj). exact (eq_sym Hk).
  - intros d Hd'. destruct (Hg (d + 1) ltac:(lia)) as (j & p & Hj & Hp).
    assert (Hne : i <> j).
    { intros <-. rewrite Hi in Hj. injection Hj as <-. cbn [ticket_of] in Hp.
      subst k. u32_lia. }
    exists j, p. split; [now apply lookup_delete_Some|].
    destruct (Hother j p Hne Hj) as [Hu Hr]. u32_lia.
Qed.

Lemma Inv_lock_step (s s' : sys) : Inv s -> lock_step s s' -> Inv s'.
Proof.
  intros HI Hs. destruct Hs.
  - now apply Inv_take.
  - now apply Inv_enter.
  - now apply Inv_release with k.
Qed.

Lemma Inv_try_big_endian (s s' : sys) :
  Inv s -> try_step Ticket.BigEndian s s' -> Inv s'.
Proof.
  intros HI Hs. destruct Hs as [s i me t' evs Hi Hme Hcas].
  pose proof HI as [[Hh Ht] Hb Hc Hw Hd Hcr Hg].
  rewrite TryLock_cas_big_endian in Hcas by (try assumption; now split).
  destruct (Ticket.head (lk s) =? u32 (me + 1)) eqn:E1; [|discriminate].
  destruct (Ticket.tail (lk s) =? me) eqn:E2; [|discriminate].
  cbn [andb] in Hcas. injection Hcas as <- _.
  apply Z.eqb_eq in E1, E2. subst me.
  assert (Hempty : threads s = ∅).
  { apply map_size_empty_inv.
    assert (Z.of_nat (size (threads s)) = 0); [|lia].
    rewrite <- Hc. u32_lia. }
  cbn [Ticket.tail].
  split; unfold ahead; cbn [lk threads Ticket.tail Ticket.head];
    rewrite ?Hempty, ?map_size_insert_None, ?map_size_empty
      by apply lookup_empty.
  - split; [exact Hh | apply u32_range].
  - lia.
  - u32_lia.
  - intros j p Hj. apply lookup_insert_Some in Hj as [[_ <-]|[_ Hj]];
      [|now rewrite lookup_empty in Hj].
    cbn [ticket_of]. split; [apply u32_range | u32_lia].
  - intros j1 j2 p q H1 H2 _.
    apply lookup_insert_Some in H1 as [[<- _]|[_ H1]];
      [|now rewrite lookup_empty in H1].
    apply lookup_insert_Some in H2 as [[<- _]|[_ H2]];
      [reflexivity | now rewrite lookup_empty in H2].
  - intros j k Hj. apply lookup_insert_Some in Hj as [[_ Hj]|[_ Hj]];
      [|now rewrite lookup_empty in Hj].
    injection Hj as <-. u32_lia.
  - intros d Hd'. exists i, (Critical (u32 (Ticket.tail (lk s) + 1))).
    rewrite lookup_insert_eq. split; [reflexivity|]. cbn [ticket_of]. u32_lia.
Qed.

Lemma Inv_reachable_big_endian (s : sys) :
  reachable (step Ticket.BigEndian) s -> Inv s.
Proof.
  induction 1 as [|s s' _ IH [Hs|Hs]].
  - exact Inv_init.
  - exact (Inv_lock_step s s' IH Hs).
  - exact (Inv_try_big_endian s s' IH Hs).
Qed.

Lemma Inv_reachable_lock (s : sys) : reachable lock_step s -> Inv s.
Proof.
  induction 1 as [|s s' _ IH Hs]; [exact Inv_init|].
  exact (Inv_lock_step s s' IH Hs).
Qed.

Lemma Inv_mutual_exclusion (s : sys) : Inv s -> mutual_exclusion s.
Proof.
  intros HI i j ki kj Hi Hj.
  apply (inv_distinct s HI i j _ _ Hi Hj). cbn [ticket_of].
  rewrite (inv_critical s HI i ki Hi), (inv_critical s HI j kj Hj).
  reflexivity.
Qed.

Lemma reachable_lock_step_any (bo : Ticket.ByteOrder) (s : sys) :
  reachable lock_step s -> reachable (step bo) s.
Proof.
  induction 1 as [|s s' _ IH Hs]; [constructor|].
  apply reach_step with s; [exact IH | now left].
Qed.

(** Goroutine 0 took ticket 1 and entered, goroutine 1 took ticket 2 and
    waits. *)
Lemma reachable_two_goroutines :
  exists s,
    reachable lock_step s /\
    lk s = {| Ticket.head := 1; Ticket.tail := 2 |} /\
    threads s !! 0%nat = Some (Critical 1) /\
    threads s !! 1%nat = Some (Waiting 2).
Proof.
  eexists. split.
  - eapply reach_step.
    + eapply reach_step.
      * eapply reach_step; [apply reach_init|].
        apply (step_take init 0); [reflexivity | vm_compute; reflexivity].
      * eapply (step_enter _ 0 1); reflexivity.
    + eapply (step_take _ 1); [reflexivity | vm_compute; reflexivity].
  - repeat split; reflexivity.
Defined.

(** With [Lock] and [Unlock] alone, on any target, no two goroutines
    are in their critical sections at the same time, however their
    steps interleave. *)
Theorem ticket_mutual_exclusion (s : sys) :
  reachable lock_step s -> mutual_exclusion s.
Proof.
  intros H. apply Inv_mutual_exclusion. now apply Inv_reachable_lock.
Qed.

Lemma ticket_mutual_exclusion_witness :
  exists s,
    threads s !! 0%nat = Some (Critical 1) /\
    threads s !! 1%nat = Some (Waiting 2) /\
    mutual_exclusion s.
Proof.
  destruct reachable_two_goroutines as (s & Hr & _ & H0 & H1).
  exists s. split; [exact H0|]. split; [exact H1|].
  exact (ticket_mutual_exclusion s Hr).
Defined.

(** On a big-endian target the same holds when goroutines also use
    [TryLock], whatever stale value of [tail] a [TryLock] works with. *)
Theorem ticket_mutual_exclusion_with_TryLock (s : sys) :
  reachable (step Ticket.BigEndian) s -> mutual_exclusion s.
Proof.
  intros H. apply Inv_mutual_exclusion. now apply Inv_reachable_big_endian.
Qed.

Lemma ticket_mutual_exclusion_with_TryLock_witness :
  exists s,
    threads s !! 3%nat = Some (Critical 1) /\
    reachable (step Ticket.BigEndian) s /\
    mutual_exclusion s.
Proof.
  assert (Hr : reachable (step Ticket.BigEndian)
                 {| lk := {| Ticket.head := 1; Ticket.tail := 1 |};
                    threads := <[3%nat := Critical 1]> ∅ |}).
  { eapply reach_step; [apply reach_init|]. right.
    apply (step_try Ticket.BigEndian init 3 0
             {| Ticket.head := 1; Ticket.tail := 1 |}
             [Ticket.EvCAS (pack64 1 0) (pack64 1 1) true]).
    - reflexivity.
    - unfold is_u32; lia.
    - reflexivity. }
  eexists. split; [|split; [exact Hr|]].
  - reflexivity.
  - exact (ticket_mutual_exclusion_with_TryLock _ Hr).
Defined.

(** The lock says it is free exactly when no goroutine is inside. *)
Theorem ticket_free_iff_nobody_inside (s : sys) :
  reachable (step Ticket.BigEndian) s ->
  (Ticket.isFree (lk s) = true <-> threads s = ∅).
Proof.
  intros H. apply Inv_reachable_big_endian in H.
  destruct H as [[Hh Ht] Hb Hc _ _ _ _].
  rewrite isFree_head_tail by now split. split.
  - intros E. apply map_size_empty_inv.
    assert (Z.of_nat (size (threads s)) = 0); [|lia].
    rewrite <- Hc. u32_lia.
  - intros E. rewrite E, map_size_empty in Hc. u32_lia.
Qed.

Lemma ticket_free_iff_nobody_inside_witness :
  exists s,
    threads s !! 0%nat = Some (Critical 1) /\
    (Ticket.isFree (lk s) = true <-> threads s = ∅).
Proof.
  destruct reachable_two_goroutines as (s & Hr & _ & H0 & _).
  exists s. split; [exact H0|].
  apply ticket_free_iff_nobody_inside.
  now apply reachable_lock_step_any.
Defined.

(** The goroutines inside hold the consecutive tickets from [head] to
    [tail], each ticket once: there are [tail - head + 1] of them
    (modulo [2^32]), and for every [d] below that number exactly one
    goroutine has the ticket [head + d].  The one in its critical
    section, if any, has the ticket [head], the oldest. *)
Theorem ticket_queue_is_gapless (s : sys) :
  reachable (step Ticket.BigEndian) s ->
  Z.of_nat (size (threads s)) =
    u32 (Ticket.tail (lk s) - Ticket.head (lk s) + 1) /\
  (forall d, 0 <= d < Z.of_nat (size (threads s)) ->
     exists i p,
       threads s !! i = Some p /\
       ticket_of p = u32 (Ticket.head (lk s) + d) /\
       forall j q, threads s !! j = Some q ->
                   ticket_of q = u32 (Ticket.head (lk s) + d) -> j = i) /\
  (forall i p, threads s !! i = Some p ->
     exists d, 0 <= d < Z.of_nat (size (threads s)) /\
               ticket_of p = u32 (Ticket.head (lk s) + d)) /\
  (forall i k, threads s !! i = Some (Critical k) -> k = Ticket.head (lk s)).
Proof.
  intros H. apply Inv_reachable_big_endian in H.
  destruct H as [[Hh Ht] Hb Hc Hw Hd Hcr Hg]. unfold ahead in *.
  split; [now symmetry|]. split; [|split; [|exact Hcr]].
  - intros d Hd'. destruct (Hg d Hd') as (i & p & Hi & Hp).
    exists i, p. split; [exact Hi|].
    destruct (Hw i p Hi) as [Hu _].
    assert (E : ticket_of p = u32 (Ticket.head (lk s) + d)) by u32_lia.
    split; [exact E|].
    intros j q Hj Hq. apply (Hd j i q p Hj Hi). congruence.
  - intros i p Hi. destruct (Hw i p Hi) as [Hu Hlt].
    exists (u32 (ticket_of p - Ticket.head (lk s))).
    split; [split; [apply u32_range | exact Hlt]|]. u32_lia.
Qed.

Lemma ticket_queue_is_gapless_witness :
  exists s,
    lk s = {| Ticket.head := 1; Ticket.tail := 2 |} /\
    threads s !! 0%nat = Some (Critical 1) /\
    threads s !! 1%nat = Some (Waiting 2) /\
    Z.of_nat (size (threads s)) =
      u32 (Ticket.tail (lk s) - Ticket.head (lk s) + 1).
Proof.
  destruct reachable_two_goroutines as (s & Hr & Hl & H0 & H1).
  exists s. split; [exact Hl|]. split; [exact H0|]. split; [exact H1|].
  apply ticket_queue_is_gapless. now apply reachable_lock_step_any.
Defined.

(** While some goroutine is inside, the system can move: either the
    goroutine with the ticket [head] is waiting and its next load of
    [head] lets it in, or it holds the lock and can release it. *)
Theorem ticket_no_deadlock (s : sys) :
  reachable (step Ticket.BigEndian) s ->
  threads s <> ∅ ->
  exists i,
    (threads s !! i = Some (Waiting (Ticket.head (lk s))) /\
     lock_step s {| lk := lk s;
                    threads := <[i := Critical (Ticket.head (lk s))]>
                                 (threads s) |}) \/
    (threads s !! i = Some (Critical (Ticket.head (lk s))) /\
     lock_step s {| lk := Ticket.Unlock (lk s);
                    threads := delete i (threads s) |}).
Proof.
  intros H Hne. apply Inv_reachable_big_endian in H.
  destruct H as [[Hh Ht] Hb Hc Hw Hd Hcr Hg]. unfold ahead in *.
  assert (Hpos : 0 <= 0 < Z.of_nat (size (threads s))).
  { assert (size (threads s) <> 0%nat); [|lia].
    intros E. now apply map_size_empty_inv in E. }
  destruct (Hg 0 Hpos) as (i & p & Hi & Hp).
  destruct (Hw i p Hi) as [Hu _].
  assert (E : ticket_of p = Ticket.head (lk s)) by u32_lia.
  exists i. destruct p as [k|k]; cbn [ticket_of] in E; subst k.
  - left. split; [exact Hi|]. apply step_enter; [exact Hi | apply Z.eqb_refl].
  - right. split; [exact Hi|]. now apply step_release with (Ticket.head (lk s)).
Qed.

Lemma ticket_no_deadlock_witness :
  exists s,
    threads s !! 1%nat = Some (Waiting 2) /\
    exists i,
      (threads s !! i = Some (Waiting (Ticket.head (lk s))) /\
       lock_step s {| lk := lk s;
                      threads := <[i := Critical (Ticket.head (lk s))]>
                                   (threads s) |}) \/
      (threads s !! i = Some (Critical (Ticket.head (lk s))) /\
       lock_step s {| lk := Ticket.Unlock (lk s);
                      threads := delete i (threads s) |}).
Proof.
  destruct reachable_two_goroutines as (s & Hr & _ & _ & H1).
  exists s. split; [exact H1|].
  apply ticket_no_deadlock.
  - now apply reachable_lock_step_any.
  - intros E. rewrite E in H1. now rewrite lookup_empty in H1.
Defined.

End TicketSystem.

(** ** Array lock, further *)

Section ALockMore.
Import ALock ALockState.

(** [NewArrayLock] gives no lock for a capacity of zero, where the
    store into [flags[0]] panics, nor for a capacity beyond what [make]
    can allocate; for every capacity from 1 to that limit it returns a
    lock with that many flags, the first set and the others zero, and
    [tail] zero. *)
Theorem NewArrayLock_returns_within_limit (maxLen N : Z) :
  is_u32 N ->
  (NewArrayLock_within maxLen N = Panics <-> N = 0 \/ maxLen < N) /\
  (0 < N <= maxLen ->
   exists al,
     NewArrayLock_within maxLen N = Returns al /\ wf al /\
     Z.of_nat (length (flags (share al))) = N /\
     hand_at 0 (flags (share al)) /\ tail (share al) = 0).
Proof.
  intros [HN0 HN1]. unfold NewArrayLock_within.
  destruct (maxLen <? N) eqn:E;
    [apply Z.ltb_lt in E | apply Z.ltb_ge in E].
  - split; [split; auto | lia].
  - split.
    + unfold NewArrayLock, store_flag. rewrite length_replicate.
      case_decide; split; intros H0; try discriminate; try reflexivity; lia.
    + intros HN. unfold NewArrayLock.
      rewrite store_flag_in_range by (rewrite length_replicate; lia).
      eexists. split; [reflexivity|].
      unfold wf, hand_at. cbn [share flags tail size myIndex].
      change (Z.to_nat 0) with 0%nat.
      rewrite length_insert, length_replicate.
      split; [|split; [lia | split; [|reflexivity]]].
      * unfold is_u32. repeat split; lia.
      * split; [lia | reflexivity].
Qed.

Lemma NewArrayLock_returns_within_limit_witness :
  NewArrayLock_within 1000 0 = Panics /\
  NewArrayLock_within 1000 4294967295 = Panics /\
  exists al,
    NewArrayLock_within 1000 2 = Returns al /\ wf al /\
    Z.of_nat (length (flags (share al))) = 2 /\
    hand_at 0 (flags (share al)) /\ tail (share al) = 0.
Proof.
  destruct (NewArrayLock_returns_within_limit 1000 0) as [H0 _];
    [unfold is_u32; lia|].
  destruct (NewArrayLock_returns_within_limit 1000 4294967295) as [Hbig _];
    [unfold is_u32; lia|].
  destruct (NewArrayLock_returns_within_limit 1000 2) as [_ H2];
    [unfold is_u32; lia|].
  split; [apply H0; lia|]. split; [apply Hbig; lia | apply H2; lia].
Defined.

Lemma hand_at_load (i j : Z) (fl : list Z) :
  hand_at i fl -> 0 <= j < Z.of_nat (length fl) ->
  load_flag j fl = Some (if decide (j = i) then 1 else 0).
Proof.
  intros [Hi Hfl] Hj. unfold load_flag. rewrite Hfl.
  case_decide as E.
  - subst j. apply list_lookup_insert_eq. rewrite length_replicate. lia.
  - rewrite list_lookup_insert_ne by lia.
    apply lookup_replicate_2. lia.
Qed.

Lemma hand_at_move (i k : Z) (fl : list Z) :
  hand_at i fl -> 0 <= k < Z.of_nat (length fl) ->
  hand_at k (<[Z.to_nat k := 1]> (<[Z.to_nat i := 0]> fl)).
Proof.
  intros [Hi Hfl] Hk. split; [now rewrite !length_insert|].
  rewrite !length_insert. rewrite Hfl at 1.
  rewrite list_insert_insert_eq. f_equal.
  apply list_insert_id. apply lookup_replicate_2. lia.
Qed.

(** No operation on a lock that [NewArrayLock] made panics, and each
    leaves a lock of the same size with as many flags: [Lock] takes a
    slot below [size], [TryLock] returns, [Unlock] returns. *)
Theorem ALock_operations_never_panic (al : ArrayLock) :
  wf al ->
  (exists al' slot,
     Lock_enqueue al = Returns (al', slot) /\ wf al' /\
     size (share al') = size (share al) /\
     0 <= slot < size (share al) /\ myIndex al' = slot) /\
  (forall fuel,
     Lock fuel al <> Panics /\
     forall al', Lock fuel al = Returns al' -> wf al') /\
  (exists ok al', TryLock al = Returns (ok, al') /\ wf al') /\
  (exists al', Unlock al = Returns al' /\ wf al').
Proof.
  intros (HN & Hlen & Hidx & Htail).
  assert (Hsz : (size (share al) =? 0) = false) by (apply Z.eqb_neq; lia).
  assert (Henq : exists al' slot,
     Lock_enqueue al = Returns (al', slot) /\ wf al' /\
     size (share al') = size (share al) /\
     0 <= slot < size (share al) /\ myIndex al' = slot).
  { unfold Lock_enqueue. rewrite Hsz. do 2 eexists.
    split; [reflexivity|].
    pose proof (Z.mod_pos_bound (u32 (tail (share al) + 1)) (size (share al))
                  ltac:(lia)).
    unfold wf. cbn [share flags tail size myIndex].
    repeat split; try lia; apply u32_range. }
  split; [exact Henq|]. split; [|split].
  - intros fuel. unfold Lock.
    destruct Henq as (al' & slot & -> & W' & Hsize & Hslot & Hm).
    assert (Hload : exists v, load_flag slot (flags (share al')) = Some v).
    { destruct W' as (_ & Hlen' & _). unfold load_flag.
      apply lookup_lt_is_Some_2. lia. }
    destruct Hload as [v Hv].
    assert (Hw : forall f, Lock_wait f al' slot = Spins \/
                           Lock_wait f al' slot = Returns al').
    { induction f as [|f IHf]; [now left|]. cbn [Lock_wait]. rewrite Hv.
      destruct (v =? 0); [exact IHf | now right]. }
    destruct (Hw fuel) as [E|E]; rewrite E; split; try discriminate.
    now intros al'' [= <-].
  - unfold TryLock. rewrite Hsz.
    pose proof (Z.mod_pos_bound (tail (share al)) (size (share al)) ltac:(lia)).
    destruct (load_flag _ _) as [v|] eqn:E.
    + unfold TryLock_cas. destruct (v =? 1); [rewrite Z.eqb_refl|];
        do 2 eexists; (split; [reflexivity|]);
        unfold wf; cbn [share flags tail size myIndex]; repeat split;
        try lia; try apply u32_range; apply Htail.
    + exfalso. unfold load_flag in E. apply lookup_ge_None in E. lia.
  - unfold Unlock. rewrite Hsz.
    rewrite store_flag_in_range by lia.
    pose proof (Z.mod_pos_bound (u32 (myIndex al + 1)) (size (share al))
                  ltac:(lia)).
    rewrite store_flag_in_range by (rewrite length_insert; lia).
    eexists. split; [reflexivity|].
    unfold wf. cbn [share flags tail size myIndex]. rewrite !length_insert.
    repeat split; try lia; apply Htail.
Qed.

Lemma ALock_operations_never_panic_witness :
  let al := {| share := {| flags := [0; 1; 0]; tail := 4294967295; size := 3 |};
               myIndex := 2 |} in
  (exists al' slot,
     Lock_enqueue al = Returns (al', slot) /\ wf al' /\
     size (share al') = 3 /\
     0 <= slot < 3 /\ myIndex al' = slot) /\
  (exists ok al', TryLock al = Returns (ok, al') /\ wf al') /\
  (exists al', Unlock al = Returns al' /\ wf al').
Proof.
  intros al.
  assert (W : wf al).
  { unfold wf, is_u32. cbn. lia. }
  destruct (ALock_operations_never_panic al W) as (H1 & _ & H3 & H4).
  split; [exact H1|]. split; [exact H3 | exact H4].
Defined.

(** [TryLock] then [Unlock], with no [Lock] of another goroutine in
    between and [tail] not at its last value: when the flag of slot
    [tail mod size] is the open one, [TryLock] succeeds and takes that
    slot; with two slots or more a second [TryLock] then fails; and
    [Unlock] opens the flag of the slot that the new [tail] points to,
    so the next [TryLock] succeeds again. *)
Theorem TryLock_Unlock_cycle (al : ArrayLock) :
  wf al ->
  hand_at (tail (share al) mod size (share al)) (flags (share al)) ->
  tail (share al) + 1 < 2 ^ 32 ->
  exists al1 al2,
    TryLock al = Returns (true, al1) /\
    myIndex al1 = tail (share al) mod size (share al) /\
    (2 <= size (share al) -> TryLock al1 = Returns (false, al1)) /\
    Unlock al1 = Returns al2 /\
    wf al2 /\
    tail (share al2) = tail (share al) + 1 /\
    size (share al2) = size (share al) /\
    hand_at (tail (share al2) mod size (share al2)) (flags (share al2)).
Proof.
  intros (HN & Hlen & Hidx & Htail) Hhand Hnext.
  set (N := size (share al)) in *. set (t := tail (share al)) in *.
  assert (Hsz : (N =? 0) = false) by (apply Z.eqb_neq; lia).
  pose proof (Z.mod_pos_bound t N ltac:(lia)) as Hslot.
  pose proof (Z.mod_pos_bound (t + 1) N ltac:(lia)) as Hslot'.
  assert (Ht1 : u32 (t + 1) = t + 1) by (unfold is_u32 in Htail; u32_lia).
  assert (Hs1 : u32 (t mod N + 1) mod N = (t + 1) mod N).
  { rewrite u32_id by (unfold is_u32; lia).
    now rewrite Z.add_mod_idemp_l by lia. }
  eexists. eexists.
  split; [|split; [|split; [|split]]].
  - unfold TryLock. fold N t. rewrite Hsz.
    rewrite (hand_at_load (t mod N) (t mod N)) by (try assumption; lia).
    rewrite decide_True by reflexivity.
    unfold TryLock_cas. fold t N. rewrite !Z.eqb_refl. reflexivity.
  - reflexivity.
  - intros H2. unfold TryLock. cbn [share flags tail size myIndex].
    fold N. rewrite Hsz, Ht1.
    rewrite (hand_at_load (t mod N) ((t + 1) mod N)) by (try assumption; lia).
    rewrite decide_False; [reflexivity|].
    intros E.
    assert (t mod N + 1 = (t + 1) mod N \/ (t mod N = N - 1 /\ (t + 1) mod N = 0)).
    { rewrite <- (Z.add_mod_idemp_l t 1 N) by lia.
      destruct (Z.eq_dec (t mod N) (N - 1)) as [E'|E'].
      - right. split; [exact E'|]. rewrite E'.
        replace (N - 1 + 1) with (1 * N) by lia. now rewrite Z.mod_mul by lia.
      - left. rewrite (Z.mod_small (t mod N + 1)); lia. }
    lia.
  - unfold Unlock. cbn [share flags tail size myIndex]. fold N.
    rewrite Hsz, Hs1.
    rewrite store_flag_in_range by lia.
    rewrite store_flag_in_range by (rewrite length_insert; lia).
    reflexivity.
  - cbn [share flags tail size myIndex]. fold N. rewrite Ht1.
    split; [|split; [reflexivity | split; [reflexivity|]]].
    + unfold wf. cbn [share flags tail size myIndex]. rewrite !length_insert.
      fold N. unfold is_u32 in *. repeat split; lia.
    + apply hand_at_move; [assumption | lia].
Qed.

Lemma TryLock_Unlock_cycle_witness :
  let al := {| share := {| flags := [0; 1; 0]; tail := 7; size := 3 |};
               myIndex := 0 |} in
  exists al1 al2,
    TryLock al = Returns (true, al1) /\
    myIndex al1 = 7 mod 3 /\
    (2 <= 3 -> TryLock al1 = Returns (false, al1)) /\
    Unlock al1 = Returns al2 /\
    wf al2 /\
    tail (share al2) = 7 + 1 /\
    size (share al2) = 3 /\
    hand_at (tail (share al2) mod size (share al2)) (flags (share al2)).
Proof.
  intros al.
  apply (TryLock_Unlock_cycle al).
  - unfold wf, is_u32. cbn. lia.
  - split; [vm_compute; split; [discriminate | reflexivity] | reflexivity].
  - cbn. lia.
Defined.



(** With nothing else running, [Lock] increments [tail], takes the slot
    the new [tail] points to, and returns at its first load when the
    flag of that slot is not zero; when it is zero it does not return,
    however long it goes on. *)
Theorem Lock_returns_iff_slot_open (al : ArrayLock) (fuel : nat) :
  wf al ->
  let slot := u32 (tail (share al) + 1) mod size (share al) in
  exists v,
    load_flag slot (flags (share al)) = Some v /\
    Lock (S fuel) al =
      if v =? 0 then Spins
      else Returns {| share := {| flags := flags (share al);
                                  tail := u32 (tail (share al) + 1);
                                  size := size (share al) |};
                      myIndex := slot |}.
Proof.
  intros (HN & Hlen & Hidx & Htail) slot.
  assert (Hsz : (size (share al) =? 0) = false) by (apply Z.eqb_neq; lia).
  pose proof (Z.mod_pos_bound (u32 (tail (share al) + 1)) (size (share al))
                ltac:(lia)) as Hslot. fold slot in Hslot.
  destruct (load_flag slot (flags (share al))) as [v|] eqn:E.
  - exists v. split; [reflexivity|].
    unfold Lock, Lock_enqueue. rewrite Hsz. fold slot.
    destruct (v =? 0) eqn:Ev.
    + apply Lock_wait_closed. cbn [share flags]. rewrite E.
      apply Z.eqb_eq in Ev. now subst v.
    + cbn [Lock_wait share flags]. now rewrite E, Ev.
  - exfalso. unfold load_flag in E. apply lookup_ge_None in E. lia.
Qed.

Lemma Lock_returns_iff_slot_open_witness :
  let al := {| share := {| flags := [0; 0; 1]; tail := 4; size := 3 |};
               myIndex := 1 |} in
  exists v,
    load_flag (u32 (4 + 1) mod 3) [0; 0; 1] = Some v /\
    Lock 1 al =
      if v =? 0 then Spins
      else Returns {| share := {| flags := [0; 0; 1]; tail := u32 (4 + 1);
                                  size := 3 |};
                      myIndex := u32 (4 + 1) mod 3 |}.
Proof.
  intros al. apply (Lock_returns_iff_slot_open al 0).
  unfold wf, is_u32. cbn. lia.
Defined.

(** When [tail] wraps around from [2^32 - 1] to [0] and the capacity
    does not divide [2^32], [TryLock] and the flags part company: after
    the [TryLock] that wraps [tail] and its [Unlock], the open flag is
    that of slot [2^32 mod size], [tail] points to slot 0, and
    [TryLock] fails although nobody holds the lock. *)
Theorem TryLock_fails_after_tail_wraps (al : ArrayLock) :
  wf al ->
  hand_at (tail (share al) mod size (share al)) (flags (share al)) ->
  tail (share al) = 2 ^ 32 - 1 ->
  2 ^ 32 mod size (share al) <> 0 ->
  exists al1 al2,
    TryLock al = Returns (true, al1) /\
    Unlock al1 = Returns al2 /\
    tail (share al2) = 0 /\
    hand_at (2 ^ 32 mod size (share al)) (flags (share al2)) /\
    TryLock al2 = Returns (false, al2).
Proof.
  intros (HN & Hlen & Hidx & Htail) Hhand Ht Hdiv.
  set (N := size (share al)) in *. set (t := tail (share al)) in *.
  assert (Hsz : (N =? 0) = false) by (apply Z.eqb_neq; lia).
  pose proof (Z.mod_pos_bound t N ltac:(lia)) as Hslot.
  pose proof (Z.mod_pos_bound (2 ^ 32) N ltac:(lia)) as Hslot'.
  assert (Ht1 : u32 (t + 1) = 0) by (rewrite Ht; reflexivity).
  assert (Hs1 : u32 (t mod N + 1) mod N = 2 ^ 32 mod N).
  { rewrite u32_id by (unfold is_u32; lia).
    rewrite Z.add_mod_idemp_l by lia. rewrite Ht. f_equal. }
  eexists. eexists.
  split; [|split; [|split; [|split]]].
  - unfold TryLock. fold N t. rewrite Hsz.
    rewrite (hand_at_load (t mod N) (t mod N)) by (try assumption; lia).
    rewrite decide_True by reflexivity.
    unfold TryLock_cas. fold t N. rewrite !Z.eqb_refl. reflexivity.
  - unfold Unlock. cbn [share flags tail size myIndex]. fold N.
    rewrite Hsz, Hs1.
    rewrite store_flag_in_range by lia.
    rewrite store_flag_in_range by (rewrite length_insert; lia).
    reflexivity.
  - cbn [share flags tail size myIndex]. exact Ht1.
  - cbn [share flags tail size myIndex]. apply hand_at_move; [assumption | lia].
  - unfold TryLock. cbn [share flags tail size myIndex]. fold N.
    rewrite Hsz, Ht1, Z.mod_0_l by lia.
    rewrite (hand_at_load (2 ^ 32 mod N) 0).
    + rewrite decide_False by lia. reflexivity.
    + apply hand_at_move; [assumption | lia].
    + rewrite !length_insert. lia.
Qed.

Lemma TryLock_fails_after_tail_wraps_witness :
  let al := {| share := {| flags := [1; 0; 0]; tail := 4294967295; size := 3 |};
               myIndex := 2 |} in
  exists al1 al2,
    TryLock al = Returns (true, al1) /\
    Unlock al1 = Returns al2 /\
    tail (share al2) = 0 /\
    hand_at (2 ^ 32 mod 3) (flags (share al2)) /\
    TryLock al2 = Returns (false, al2).
Proof.
  intros al. apply (TryLock_fails_after_tail_wraps al).
  - unfold wf, is_u32. cbn. lia.
  - split; [vm_compute; split; [discriminate | reflexivity] | reflexivity].
  - reflexivity.
  - vm_compute. discriminate.
Defined.

(** [TryLock] does not close the flag of the slot it takes.  With
    capacity [N >= 2], after a [TryLock] that succeeded the flags are as
    before, and of the next [N - 1] goroutines that call [Lock] the
    last is given the holder's slot, whose flag is still 1; with
    capacity 2 that is the very next [Lock], which returns at its first
    load while the lock is held. *)
Theorem TryLock_slot_handed_out_again (al : ArrayLock) :
  wf al ->
  hand_at (tail (share al) mod size (share al)) (flags (share al)) ->
  2 <= size (share al) ->
  tail (share al) + size (share al) < 2 ^ 32 ->
  exists al1,
    TryLock al = Returns (true, al1) /\
    flags (share al1) = flags (share al) /\
    Lock_slots (Z.to_nat (size (share al) - 1)) al1
      !! Z.to_nat (size (share al) - 2) = Some (myIndex al1) /\
    load_flag (myIndex al1) (flags (share al1)) = Some 1 /\
    (size (share al) = 2 ->
     exists al2, Lock 1 al1 = Returns al2 /\ myIndex al2 = myIndex al1).
Proof.
  intros (HN & Hlen & Hidx & Htail) Hhand H2 Hnext.
  set (N := size (share al)) in *. set (t := tail (share al)) in *.
  assert (Hsz : (N =? 0) = false) by (apply Z.eqb_neq; lia).
  pose proof (Z.mod_pos_bound t N ltac:(lia)) as Hslot.
  assert (Ht1 : u32 (t + 1) = t + 1) by (unfold is_u32 in Htail; u32_lia).
  assert (Hflag : load_flag (t mod N) (flags (share al)) = Some 1).
  { rewrite (hand_at_load (t mod N) (t mod N)) by (try assumption; lia).
    now rewrite decide_True. }
  eexists. split; [|split; [|split; [|split]]].
  - unfold TryLock. fold N t. rewrite Hsz, Hflag.
    unfold TryLock_cas. fold t N. rewrite !Z.eqb_refl. reflexivity.
  - reflexivity.
  - rewrite Lock_slots_lookup by (cbn [share size]; fold N; lia).
    cbn [share tail size myIndex]. fold N. rewrite Ht1. f_equal.
    rewrite u32_id by (unfold is_u32 in *; lia).
    replace (t + 1 + Z.of_nat (Z.to_nat (N - 2)) + 1) with (t + 1 * N) by lia.
    now rewrite Z.mod_add by lia.
  - cbn [share flags myIndex]. exact Hflag.
  - intros HN2. unfold Lock, Lock_enqueue. cbn [share flags tail size myIndex].
    fold N. rewrite Hsz, Ht1.
    rewrite u32_id by (unfold is_u32 in *; lia).
    assert (E : (t + 1 + 1) mod N = t mod N).
    { replace (t + 1 + 1) with (t + 1 * N) by lia. now rewrite Z.mod_add by lia. }
    rewrite E. cbn [Lock_wait share flags]. rewrite Hflag. cbn.
    eexists. split; reflexivity.
Qed.

Lemma TryLock_slot_handed_out_again_witness :
  exists al0 al1 al2,
    NewArrayLock 2 = Returns al0 /\
    TryLock al0 = Returns (true, al1) /\
    Lock 1 al1 = Returns al2 /\
    myIndex al2 = myIndex al1.
Proof.
  set (al0 := {| share := {| flags := [1; 0]; tail := 0; size := 2 |};
                 myIndex := 0 |}).
  destruct (TryLock_slot_handed_out_again al0) as (al1 & HT & _ & _ & _ & HL).
  - unfold wf, is_u32. cbn. lia.
  - split; [vm_compute; split; [discriminate | reflexivity] | reflexivity].
  - cbn. lia.
  - cbn. lia.
  - destruct (HL eq_refl) as (al2 & HL2 & Hm).
    exists al0, al1, al2. split; [reflexivity|].
    split; [exact HT|]. split; [exact HL2 | exact Hm].
Defined.

End ALockMore.

(** ** MCS lock, further *)

Section MCSMore.
Import MCS MCSSteps.

Lemma Lock_in_steps_eq fuel node (h : nodes) l :
  Lock fuel node h l = Lock_in_steps fuel node h l.
Proof.
  unfold Lock, Lock_in_steps, Lock_enqueue.
  destruct node as [n|]; [|reflexivity].
  destruct (store_next n None h) as [h0|]; [|reflexivity].
  destruct (tail l) as [p|]; [|reflexivity].
  destruct (store_waiting n 1 h0) as [h1|]; [|reflexivity].
  destruct (store_next p (Some n) h1) as [h2|]; reflexivity.
Qed.

(** On a free lock [Lock] returns without entering its loop, having
    cleared [node.next] and made [node] the tail; the lock is then not
    free; [Unlock] with the same node puts [tail] back to [nil] without
    waiting, and the lock is free again. *)
Theorem MCS_Lock_Unlock_uncontended (fuel : nat) (n : loc) (q : QNode)
    (h : nodes) (l : lock) :
  h !! n = Some q -> tail l = None ->
  let h1 : nodes := <[n := {| next := None; waiting := waiting q |}]> h in
  Lock fuel (Some n) h l = Returns (h1, {| tail := Some n |}) /\
  IsFree {| tail := Some n |} = false /\
  Unlock fuel (Some n) h1 {| tail := Some n |} = Returns (h1, {| tail := None |}) /\
  IsFree {| tail := None |} = true.
Proof.
  intros Hn Ht h1. split; [|split; [reflexivity | split; [|reflexivity]]].
  - unfold Lock, store_next. now rewrite Hn, Ht.
  - unfold Unlock, CompareAndSwap. unfold h1. rewrite lookup_insert_eq.
    cbn [next tail]. now rewrite decide_True by reflexivity.
Qed.

Lemma MCS_Lock_Unlock_uncontended_witness :
  let q := {| next := Some 5%positive; waiting := 1 |} in
  let h : nodes := {[ 1%positive := q ]} in
  let h1 : nodes := <[1%positive := {| next := None; waiting := 1 |}]> h in
  Lock 0 (Some 1%positive) h NewLock = Returns (h1, {| tail := Some 1%positive |}) /\
  IsFree {| tail := Some 1%positive |} = false /\
  Unlock 0 (Some 1%positive) h1 {| tail := Some 1%positive |} =
    Returns (h1, {| tail := None |}) /\
  IsFree {| tail := None |} = true.
Proof.
  intros q h h1.
  apply (MCS_Lock_Unlock_uncontended 0 1%positive q h NewLock); reflexivity.
Defined.

(** After a [TryLock] that succeeded, a [TryLock] with any node fails
    and leaves [tail] alone; once the holder has called [Unlock] the
    lock is free and [TryLock] succeeds again. *)
Theorem MCS_TryLock_exclusive (fuel : nat) (n m : loc) (qn qm : QNode)
    (h : nodes) (l : lock) :
  h !! n = Some qn -> h !! m = Some qm -> tail l = None ->
  exists h1 h2 e1 e2,
    TryLock (Some n) h l = Returns (true, h1, {| tail := Some n |}, e1) /\
    TryLock (Some m) h1 {| tail := Some n |} =
      Returns (false, h2, {| tail := Some n |}, e2) /\
    Unlock fuel (Some n) h2 {| tail := Some n |} =
      Returns (h2, {| tail := None |}) /\
    exists h3 e3,
      TryLock (Some m) h2 {| tail := None |} =
        Returns (true, h3, {| tail := Some m |}, e3).
Proof.
  intros Hn Hm Ht.
  set (h1 := (<[n := {| next := None; waiting := waiting qn |}]> h : nodes)).
  assert (Hm1 : exists qm1, h1 !! m = Some qm1).
  { unfold h1. destruct (decide (n = m)) as [<-|Hne].
    - rewrite lookup_insert_eq. eauto.
    - rewrite lookup_insert_ne by assumption. eauto. }
  destruct Hm1 as [qm1 Hm1].
  set (h2 := (<[m := {| next := None; waiting := waiting qm1 |}]> h1 : nodes)).
  assert (Hn2 : exists w, h2 !! n = Some {| next := None; waiting := w |}).
  { unfold h2. destruct (decide (m = n)) as [<-|Hne].
    - rewrite lookup_insert_eq. eauto.
    - rewrite lookup_insert_ne by assumption. unfold h1.
      rewrite lookup_insert_eq. eauto. }
  destruct Hn2 as [w Hn2].
  assert (Hm2 : h2 !! m = Some {| next := None; waiting := waiting qm1 |})
    by (unfold h2; apply lookup_insert_eq).
  exists h1, h2. do 2 eexists.
  split; [|split; [|split]].
  - rewrite (TryLock_unfold n qn) by assumption. now rewrite Ht.
  - rewrite (TryLock_unfold m qm1) by assumption. reflexivity.
  - unfold Unlock, CompareAndSwap. rewrite Hn2. cbn [next tail].
    now rewrite decide_True by reflexivity.
  - do 2 eexists. rewrite (TryLock_unfold m _ h2 _ Hm2). reflexivity.
Qed.

Lemma MCS_TryLock_exclusive_witness :
  let h : nodes :=
    <[1%positive := {| next := None; waiting := 0 |}]>
      {[ 2%positive := {| next := None; waiting := 0 |} ]} in
  exists h1 h2 e1 e2,
    TryLock (Some 1%positive) h NewLock =
      Returns (true, h1, {| tail := Some 1%positive |}, e1) /\
    TryLock (Some 2%positive) h1 {| tail := Some 1%positive |} =
      Returns (false, h2, {| tail := Some 1%positive |}, e2) /\
    Unlock 0 (Some 1%positive) h2 {| tail := Some 1%positive |} =
      Returns (h2, {| tail := None |}) /\
    exists h3 e3,
      TryLock (Some 2%positive) h2 {| tail := None |} =
        Returns (true, h3, {| tail := Some 2%positive |}, e3).
Proof.
  intros h.
  apply (MCS_TryLock_exclusive 0 1%positive 2%positive
           {| next := None; waiting := 0 |} {| next := None; waiting := 0 |}
           h NewLock); reflexivity.
Defined.

Lemma Lock_wait_set fuel : forall n (h : nodes) q,
  h !! n = Some q -> waiting q <> 0 -> Lock_wait fuel n h = Spins.
Proof.
  induction fuel as [|fuel IH]; intros n h q Hn Hw; [reflexivity|].
  cbn [Lock_wait]. rewrite Hn.
  destruct (waiting q =? 0) eqn:E; [apply Z.eqb_eq in E; contradiction|].
  now apply IH with q.
Qed.

Lemma Unlock_wait_unlinked fuel : forall n (h : nodes) q,
  h !! n = Some q -> next q = None -> Unlock_wait fuel n h = Spins.
Proof.
  induction fuel as [|fuel IH]; intros n h q Hn Hq; [reflexivity|].
  cbn [Unlock_wait]. rewrite Hn, Hq. now apply IH with q.
Qed.

(** Handing the lock over.  While [p] holds the lock and is the tail, a
    [Lock] with another node [n] makes [n] the tail, sets [n.waiting],
    links [p.next] to [n] and waits.  [Unlock] by [p] then clears
    [n.waiting] and leaves [tail] at [n], upon which the loop of [n]
    ends at its next load; and [Unlock] by [n] frees the lock. *)
Theorem MCS_hand_off (fuel : nat) (p n : loc) (qp qn : QNode) (h : nodes) :
  p <> n ->
  h !! p = Some qp -> h !! n = Some qn ->
  let l := {| tail := Some p |} in
  let ln := {| tail := Some n |} in
  let h1 : nodes :=
    <[p := {| next := Some n; waiting := waiting qp |}]>
      (<[n := {| next := None; waiting := 1 |}]> h) in
  let h2 : nodes := <[n := {| next := None; waiting := 0 |}]> h1 in
  Lock_enqueue (Some n) h l = Returns (h1, ln, true) /\
  Lock fuel (Some n) h l = Spins /\
  Unlock fuel (Some p) h1 ln = Returns (h2, ln) /\
  Lock_wait (S fuel) n h2 = Returns tt /\
  Unlock fuel (Some n) h2 ln = Returns (h2, {| tail := None |}).
Proof.
  intros Hne Hp Hn l ln h1 h2.
  assert (Henq : Lock_enqueue (Some n) h l = Returns (h1, ln, true)).
  { unfold Lock_enqueue, store_next, store_waiting. rewrite Hn.
    cbn [tail l]. rewrite lookup_insert_eq. cbn [next waiting].
    rewrite insert_insert_eq.
    rewrite lookup_insert_ne by congruence. rewrite Hp. reflexivity. }
  assert (Hn1 : h1 !! n = Some {| next := None; waiting := 1 |}).
  { unfold h1. rewrite lookup_insert_ne by assumption. apply lookup_insert_eq. }
  assert (Hp1 : h1 !! p = Some {| next := Some n; waiting := waiting qp |})
    by (unfold h1; apply lookup_insert_eq).
  assert (Hn2 : h2 !! n = Some {| next := None; waiting := 0 |})
    by (unfold h2; apply lookup_insert_eq).
  split; [exact Henq|]. split; [|split; [|split]].
  - rewrite Lock_in_steps_eq. unfold Lock_in_steps. rewrite Henq.
    rewrite (Lock_wait_set fuel n h1 _ Hn1); [reflexivity | discriminate].
  - unfold Unlock, store_waiting. rewrite Hp1. cbn [next]. rewrite Hn1.
    reflexivity.
  - cbn [Lock_wait]. rewrite Hn2. reflexivity.
  - unfold Unlock, CompareAndSwap. rewrite Hn2. cbn [next tail ln].
    now rewrite decide_True by reflexivity.
Qed.

Lemma MCS_hand_off_witness :
  let q := {| next := None; waiting := 0 |} in
  let h : nodes := <[1%positive := q]> {[ 2%positive := q ]} in
  let ln := {| tail := Some 2%positive |} in
  let h1 : nodes :=
    <[1%positive := {| next := Some 2%positive; waiting := 0 |}]>
      (<[2%positive := {| next := None; waiting := 1 |}]> h) in
  let h2 : nodes := <[2%positive := {| next := None; waiting := 0 |}]> h1 in
  Lock_enqueue (Some 2%positive) h {| tail := Some 1%positive |} =
    Returns (h1, ln, true) /\
  Lock 3 (Some 2%positive) h {| tail := Some 1%positive |} = Spins /\
  Unlock 3 (Some 1%positive) h1 ln = Returns (h2, ln) /\
  Lock_wait 4 2%positive h2 = Returns tt /\
  Unlock 3 (Some 2%positive) h2 ln = Returns (h2, {| tail := None |}).
Proof.
  intros q h ln h1 h2.
  apply (MCS_hand_off 3 1%positive 2%positive q q h); [discriminate | reflexivity..].
Defined.

(** The window that [Unlock] has to sit out: [node.next] is still [nil]
    but [tail] is already another node [m], whose [Lock] has swapped
    [tail] and not yet linked itself.  [Unlock] then does not return
    and does not free the lock, however long nothing else happens; once
    [m] has set its [waiting] flag and linked itself, the waiting loop
    of [Unlock] ends at its next load, clears [m.waiting], and the loop
    of [m] ends at its next load. *)
Theorem MCS_Unlock_waits_for_link (fuel : nat) (n m : loc) (qn qm : QNode)
    (h : nodes) :
  n <> m ->
  h !! n = Some qn -> h !! m = Some qm -> next qn = None ->
  let h2 : nodes :=
    <[n := {| next := Some m; waiting := waiting qn |}]>
      (<[m := {| next := next qm; waiting := 1 |}]> h) in
  let h3 : nodes := <[m := {| next := next qm; waiting := 0 |}]> h2 in
  Unlock fuel (Some n) h {| tail := Some m |} = Spins /\
  (exists h1, store_waiting m 1 h = Some h1 /\
              store_next n (Some m) h1 = Some h2) /\
  Unlock_wait (S fuel) n h2 = Returns h3 /\
  Lock_wait (S fuel) m h3 = Returns tt.
Proof.
  intros Hne Hn Hm Hq h2 h3.
  assert (Hn2 : h2 !! n = Some {| next := Some m; waiting := waiting qn |})
    by (unfold h2; apply lookup_insert_eq).
  assert (Hm2 : h2 !! m = Some {| next := next qm; waiting := 1 |}).
  { unfold h2. rewrite lookup_insert_ne by assumption. apply lookup_insert_eq. }
  split; [|split; [|split]].
  - unfold Unlock, CompareAndSwap. rewrite Hn, Hq. cbn [tail].
    rewrite decide_False by congruence.
    now rewrite (Unlock_wait_unlinked fuel n h qn).
  - eexists. unfold store_waiting, store_next. rewrite Hm.
    split; [reflexivity|].
    rewrite lookup_insert_ne by congruence. rewrite Hn. reflexivity.
  - cbn [Unlock_wait]. rewrite Hn2. cbn [next].
    unfold store_waiting. rewrite Hm2. reflexivity.
  - cbn [Lock_wait]. unfold h3. rewrite lookup_insert_eq. reflexivity.
Qed.

Lemma MCS_Unlock_waits_for_link_witness :
  let q := {| next := None; waiting := 0 |} in
  let h : nodes := <[1%positive := q]> {[ 2%positive := q ]} in
  let h2 : nodes :=
    <[1%positive := {| next := Some 2%positive; waiting := 0 |}]>
      (<[2%positive := {| next := None; waiting := 1 |}]> h) in
  let h3 : nodes := <[2%positive := {| next := None; waiting := 0 |}]> h2 in
  Unlock 5 (Some 1%positive) h {| tail := Some 2%positive |} = Spins /\
  (exists h1, store_waiting 2%positive 1 h = Some h1 /\
              store_next 1%positive (Some 2%positive) h1 = Some h2) /\
  Unlock_wait 6 1%positive h2 = Returns h3 /\
  Lock_wait 6 2%positive h3 = Returns tt.
Proof.
  intros q h h2 h3.
  apply (MCS_Unlock_waits_for_link 5 1%positive 2%positive q q h);
    [discriminate | reflexivity..].
Defined.




End MCSMore.

(** ** MCS lock, many goroutines *)

Section MCSSystem.
Import MCS MCSSys.

Lemma queue_pred (Q : list loc) (n : loc) :
  n ∈ Q -> Q !! 0%nat <> Some n ->
  exists i a, Q !! i = Some a /\ Q !! S i = Some n.
Proof.
  intros Hin Hh. apply list_elem_of_lookup_1 in Hin as [j Hj].
  destruct j as [|i]; [contradiction|].
  assert (Hlt : (i < length Q)%nat) by (apply lookup_lt_Some in Hj; lia).
  apply lookup_lt_is_Some_2 in Hlt as [a Ha]. eauto.
Qed.

Lemma link_pc (s : sys) (a b : loc) :
  link s a b ->
  exists pb, pcs s !! b = Some pb /\
             (pb = SetWaiting a \/ pb = Linking a \/ pb = Spinning).
Proof.
  intros (qa & qb & pb & _ & _ & Hb & H). exists pb. split; [exact Hb|].
  destruct H as [[-> _]|[[-> _]|[-> _]]]; auto.
Qed.

(** A queued goroutine that is neither on its way into the loop nor in
    it is the first of the queue. *)
Lemma queue_head (s : sys) (Q : list loc) (n : loc) (p : pc) :
  InvQ s Q -> pcs s !! n = Some p -> queued p = true ->
  (forall a, p <> SetWaiting a) -> (forall a, p <> Linking a) ->
  p <> Spinning ->
  Q !! 0%nat = Some n.
Proof.
  intros HI Hn Hq H1 H2 H3.
  assert (Hin : n ∈ Q) by (now apply (inv_queued s Q HI n p)).
  destruct (decide (Q !! 0%nat = Some n)) as [|Hne]; [assumption|].
  destruct (queue_pred Q n Hin Hne) as (i & a & Ha & Hb).
  destruct (link_pc s a n (inv_link s Q HI i a n Ha Hb)) as (pb & Hpb & Hk).
  rewrite Hn in Hpb. injection Hpb as <-.
  destruct Hk as [-> | [-> | ->]]; [now destruct (H1 a) | now destruct (H2 a) | easy].
Qed.

Lemma InvQ_mutual_exclusion (s : sys) (Q : list loc) :
  InvQ s Q -> mutual_exclusion s.
Proof.
  intros HI n m Hn Hm.
  assert (Q !! 0%nat = Some n) by (now apply (queue_head s Q n Critical)).
  assert (Q !! 0%nat = Some m) by (now apply (queue_head s Q m Critical)).
  congruence.
Qed.

Lemma link_frame (s s' : sys) (a b : loc) :
  link s a b ->
  heap s' !! a = heap s !! a -> heap s' !! b = heap s !! b ->
  pcs s' !! b = pcs s !! b ->
  link s' a b.
Proof.
  intros (qa & qb & pb & Ha & Hb & Hp & H) Ea Eb Ep.
  exists qa, qb, pb. rewrite Ea, Eb, Ep. auto.
Qed.

Lemma head_ok_frame (s s' : sys) (Q Q' : list loc) (n : loc) (p : pc) :
  head_ok s Q n p ->
  heap s' !! n = heap s !! n ->
  (forall b, Q !! 1%nat = Some b -> Q' !! 1%nat = Some b) ->
  (forall succ, Q !! 1%nat = Some succ -> pcs s !! succ = Some Spinning ->
     pcs s' !! succ = Some Spinning) ->
  head_ok s' Q' n p.
Proof.
  unfold head_ok. intros H Eh HQ Hf. destruct p; try exact H.
  - now rewrite Eh.
  - destruct H as [b Hb]. exists b. now apply HQ.
  - now rewrite Eh.
  - destruct H as [H1 H2]. split; [now apply HQ | now apply Hf].
Qed.

Lemma InvQ_init (h : gmap positive QNode) : InvQ (init h) [].
Proof.
  split; cbn.
  - constructor.
  - reflexivity.
  - intros n p H. now rewrite lookup_empty in H.
  - intros n H. now apply elem_of_nil in H.
  - intros n p H. now rewrite lookup_empty in H.
  - intros i a b H. discriminate.
  - intros a H. discriminate.
  - intros a p H. discriminate.
Qed.

(** [Lock] or [TryLock] begins: the goroutine clears the [next] of its
    node, which is not in the queue. *)
Lemma InvQ_begin (s : sys) (Q : list loc) (n : loc) (p0 : pc)
    (h' : gmap positive QNode) :
  InvQ s Q ->
  pcs s !! n = None ->
  store_next n None (heap s) = Some h' ->
  queued p0 = false ->
  InvQ {| heap := h'; lk := lk s; pcs := <[n := p0]> (pcs s) |} Q.
Proof.
  intros HI Hn Hst Hq0.
  assert (Hout : n ∉ Q).
  { intros Hin. destruct (inv_inside s Q HI n Hin) as [p Hp]. congruence. }
  unfold store_next in Hst. destruct (heap s !! n) as [q|] eqn:Hq; [|discriminate].
  injection Hst as <-.
  assert (Hheap : forall m, m ∈ Q ->
            (<[n := {| next := None; waiting := waiting q |}]> (heap s)) !! m
            = heap s !! m).
  { intros m Hm. apply lookup_insert_ne. congruence. }
  assert (Hpcs : forall m, m ∈ Q -> (<[n := p0]> (pcs s)) !! m = pcs s !! m).
  { intros m Hm. apply lookup_insert_ne. congruence. }
  destruct HI as [Hnd Ht Hqd Hin Ho Hl Hla Hh].
  split; cbn [heap lk pcs].
  - exact Hnd.
  - exact Ht.
  - intros m p Hm. apply lookup_insert_Some in Hm as [[<- <-]|[Hne Hm]].
    + rewrite Hq0. split; [contradiction | discriminate].
    + now apply Hqd.
  - intros m Hm. rewrite Hpcs by assumption. now apply Hin.
  - intros m p Hm Hqp. apply lookup_insert_Some in Hm as [[<- <-]|[Hne Hm]].
    + rewrite lookup_insert_eq. eauto.
    + rewrite lookup_insert_ne by assumption. now apply Ho with p.
  - intros i a b Ha Hb.
    apply (link_frame s); cbn [heap pcs]; [now apply Hl with i|..].
    + apply Hheap. now apply list_elem_of_lookup_2 in Ha.
    + apply Hheap. now apply list_elem_of_lookup_2 in Hb.
    + apply Hpcs. now apply list_elem_of_lookup_2 in Hb.
  - intros a Ha. rewrite Hheap by (now apply last_Some_elem_of). now apply Hla.
  - intros a p Ha Hp.
    rewrite Hpcs in Hp by (now apply list_elem_of_lookup_2 in Ha).
    apply (head_ok_frame s _ Q); cbn [heap pcs]; [now apply Hh|..].
    + apply Hheap. now apply list_elem_of_lookup_2 in Ha.
    + auto.
    + intros succ Hs Hsp. rewrite Hpcs; [exact Hsp|].
      now apply list_elem_of_lookup_2 in Hs.
Qed.

(** The swap of [tail]: the node joins the queue at its end. *)
Lemma InvQ_swap (s : sys) (Q : list loc) (n : loc) (p0 : pc) :
  InvQ s Q ->
  pcs s !! n = Some p0 -> queued p0 = false ->
  InvQ {| heap := heap s; lk := {| tail := Some n |};
          pcs := <[n := match tail (lk s) with
                        | None => Critical
                        | Some pred => SetWaiting pred
                        end]> (pcs s) |}
       (Q ++ [n]).
Proof.
  intros HI Hn Hq0.
  assert (Hout : n ∉ Q).
  { intros Hin. apply (inv_queued s Q HI n p0 Hn) in Hin. congruence. }
  destruct (inv_outside s Q HI n p0 Hn Hq0) as (qn & Hqn & Hnext).
  set (p' := match tail (lk s) with
             | None => Critical | Some pred => SetWaiting pred end).
  assert (Hq' : queued p' = true) by (unfold p'; now destruct (tail (lk s))).
  assert (Hpcs : forall m, m ∈ Q -> (<[n := p']> (pcs s)) !! m = pcs s !! m).
  { intros m Hm. apply lookup_insert_ne. congruence. }
  destruct HI as [Hnd Ht Hqd Hin Ho Hl Hla Hh].
  split; cbn [heap lk pcs tail].
  - apply NoDup_app. split; [exact Hnd|]. split; [|apply NoDup_singleton].
    intros x Hx Hx'. apply list_elem_of_singleton in Hx'. congruence.
  - symmetry. apply last_snoc.
  - intros m p Hm. rewrite elem_of_app, list_elem_of_singleton.
    apply lookup_insert_Some in Hm as [[<- <-]|[Hne Hm]].
    + rewrite Hq'. split; auto.
    + rewrite <- (Hqd m p Hm). split; [intros [|]; [assumption | congruence] | auto].
  - intros m Hm. apply elem_of_app in Hm as [Hm|Hm].
    + rewrite Hpcs by assumption. now apply Hin.
    + apply list_elem_of_singleton in Hm as ->. rewrite lookup_insert_eq. eauto.
  - intros m p Hm Hqp. apply lookup_insert_Some in Hm as [[<- <-]|[Hne Hm]].
    + congruence.
    + now apply Ho with p.
  - intros i a b Ha Hb.
    apply lookup_snoc_Some in Hb as [[Hlt Hb]|[Hlen <-]].
    + apply lookup_snoc_Some in Ha as [[_ Ha]|[Hlen _]]; [|lia].
      apply (link_frame s); cbn [heap pcs]; [now apply Hl with i|reflexivity..|].
      apply Hpcs. now apply list_elem_of_lookup_2 in Hb.
    + apply lookup_snoc_Some in Ha as [[_ Ha]|[Hlen' _]]; [|lia].
      assert (Hlast : last Q = Some a).
      { rewrite last_lookup. rewrite <- Hlen. exact Ha. }
      destruct (Hla a Hlast) as (qa & Hqa & Hnexta).
      exists qa, qn, p'. cbn [heap pcs]. rewrite lookup_insert_eq.
      repeat split; try assumption.
      left. split; [|exact Hnexta]. unfold p'. now rewrite Ht, Hlast.
  - intros a Ha. rewrite last_snoc in Ha. injection Ha as <-. eauto.
  - intros a p Ha Hp. destruct Q as [|a0 Q0].
    + cbn in Ha. injection Ha as <-. rewrite lookup_insert_eq in Hp.
      injection Hp as <-. unfold p'. rewrite Ht. exact I.
    + cbn in Ha. injection Ha as <-.
      assert (Ha0 : a0 ∈ a0 :: Q0) by left.
      rewrite Hpcs in Hp by assumption.
      apply (head_ok_frame s _ (a0 :: Q0)); cbn [heap pcs];
        [exact (Hh a0 p eq_refl Hp) | reflexivity | |].
      * intros b Hb. now apply lookup_app_l_Some.
      * intros succ Hs Hsp. rewrite Hpcs; [exact Hsp|].
        now apply list_elem_of_lookup_2 in Hs.
Qed.

(** The first of the queue moves on without touching memory. *)
Lemma InvQ_head_pc (s : sys) (Q : list loc) (n : loc) (p' : pc) :
  InvQ s Q ->
  Q !! 0%nat = Some n ->
  queued p' = true ->
  head_ok {| heap := heap s; lk := lk s; pcs := <[n := p']> (pcs s) |} Q n p' ->
  InvQ {| heap := heap s; lk := lk s; pcs := <[n := p']> (pcs s) |} Q.
Proof.
  intros [Hnd Ht Hqd Hin Ho Hl Hla Hh] Hn Hq' Hok.
  assert (HnQ : n ∈ Q) by (now apply list_elem_of_lookup_2 in Hn).
  split; cbn [heap lk pcs].
  - exact Hnd.
  - exact Ht.
  - intros m p Hm. apply lookup_insert_Some in Hm as [[<- <-]|[Hne Hm]].
    + rewrite Hq'. split; auto.
    + now apply Hqd.
  - intros m Hm. destruct (decide (n = m)) as [<-|Hne].
    + rewrite lookup_insert_eq. eauto.
    + rewrite lookup_insert_ne by assumption. now apply Hin.
  - intros m p Hm Hqp. apply lookup_insert_Some in Hm as [[<- <-]|[Hne Hm]].
    + congruence.
    + now apply Ho with p.
  - intros i a b Ha Hb.
    apply (link_frame s); cbn [heap pcs]; [now apply Hl with i|reflexivity..|].
    apply lookup_insert_ne. intros ->.
    pose proof (NoDup_lookup Q _ _ _ Hnd Hn Hb). lia.
  - exact Hla.
  - intros a p Ha Hp. rewrite Hn in Ha. injection Ha as <-.
    rewrite lookup_insert_eq in Hp. injection Hp as <-. exact Hok.
Qed.

(** A node further back in the queue has the one before it as
    predecessor. *)
Lemma queue_behind (s : sys) (Q : list loc) (n : loc) (p : pc) :
  InvQ s Q -> pcs s !! n = Some p ->
  (exists a, p = SetWaiting a \/ p = Linking a) ->
  exists i a, Q !! i = Some a /\ Q !! S i = Some n /\ link s a n.
Proof.
  intros HI Hn Hp.
  assert (Hq : queued p = true) by (destruct Hp as [a [-> | ->]]; reflexivity).
  assert (Hin : n ∈ Q) by (now apply (inv_queued s Q HI n p)).
  assert (Hne : Q !! 0%nat <> Some n).
  { intros H0. pose proof (inv_head s Q HI n p H0 Hn) as Hok.
    destruct Hp as [a [-> | ->]]; exact Hok. }
  destruct (queue_pred Q n Hin Hne) as (i & a & Ha & Hb).
  exists i, a. split; [exact Ha|]. split; [exact Hb|].
  now apply (inv_link s Q HI i).
Qed.

(** [node.waiting = 1], by a node that is in the queue behind [pred]. *)
Lemma InvQ_set_waiting (s : sys) (Q : list loc) (n pred : loc)
    (h' : gmap positive QNode) :
  InvQ s Q ->
  pcs s !! n = Some (SetWaiting pred) ->
  store_waiting n 1 (heap s) = Some h' ->
  InvQ {| heap := h'; lk := lk s; pcs := <[n := Linking pred]> (pcs s) |} Q.
Proof.
  intros HI Hn Hst.
  destruct (queue_behind s Q n _ HI Hn ltac:(eauto)) as (i & a & Ha & Hb & Hlk).
  destruct Hlk as (qa & qn & pb & Hqa & Hqn & Hpb & Hk).
  rewrite Hn in Hpb. injection Hpb as <-.
  destruct Hk as [[E Hnexta]|[[E _]|[E _]]]; try discriminate.
  injection E as ->.
  unfold store_waiting in Hst. rewrite Hqn in Hst. injection Hst as <-.
  destruct HI as [Hnd Ht Hqd Hin Ho Hl Hla Hh].
  assert (Hane : a <> n).
  { intros ->. pose proof (NoDup_lookup Q _ _ _ Hnd Ha Hb). lia. }
  split; cbn [heap lk pcs].
  - exact Hnd.
  - exact Ht.
  - intros m p Hm. apply lookup_insert_Some in Hm as [[<- <-]|[Hne Hm]].
    + split; [reflexivity|]. intros _. now apply list_elem_of_lookup_2 in Hb.
    + now apply Hqd.
  - intros m Hm. destruct (decide (n = m)) as [<-|Hne].
    + rewrite lookup_insert_eq. eauto.
    + rewrite lookup_insert_ne by assumption. now apply Hin.
  - intros m p Hm Hqp. apply lookup_insert_Some in Hm as [[<- <-]|[Hne Hm]].
    + discriminate.
    + rewrite lookup_insert_ne by assumption. now apply Ho with p.
  - intros i' a' b' Ha' Hb'.
    destruct (decide (b' = n)) as [->|Hbn].
    + assert (i' = i) as -> by (apply eq_add_S; exact (NoDup_lookup Q _ _ _ Hnd Hb' Hb)).
      rewrite Ha in Ha'. injection Ha' as <-.
      exists qa, {| next := next qn; waiting := 1 |}, (Linking a).
      cbn [heap pcs]. rewrite lookup_insert_ne by congruence.
      rewrite !lookup_insert_eq. repeat split; try assumption.
      right. left. auto.
    + destruct (Hl i' a' b' Ha' Hb') as (qa' & qb' & pb' & Hqa' & Hqb' & Hpb' & Hk').
      destruct (decide (a' = n)) as [->|Han].
      * rewrite Hqn in Hqa'. injection Hqa' as <-.
        exists {| next := next qn; waiting := 1 |}, qb', pb'.
        cbn [heap pcs next]. rewrite lookup_insert_eq.
        rewrite !lookup_insert_ne by congruence. auto.
      * exists qa', qb', pb'. cbn [heap pcs].
        rewrite !lookup_insert_ne by congruence. auto.
  - intros a' Ha'. destruct (decide (a' = n)) as [->|Han].
    + destruct (Hla n Ha') as (q & Hq & Hnx). rewrite Hqn in Hq. injection Hq as <-.
      rewrite lookup_insert_eq. eauto.
    + rewrite lookup_insert_ne by congruence. now apply Hla.
  - intros a' p Ha' Hp.
    assert (Han : a' <> n).
    { intros ->. pose proof (NoDup_lookup Q _ _ _ Hnd Ha' Hb). lia. }
    rewrite lookup_insert_ne in Hp by congruence.
    apply (head_ok_frame s _ Q); cbn [heap pcs]; [now apply Hh| |auto|].
    + apply lookup_insert_ne. congruence.
    + intros succ Hs Hsp. rewrite lookup_insert_ne; [exact Hsp | congruence].
Qed.

(** [pred.next.Store(node)]: the node is now linked and in its loop. *)
Lemma InvQ_link (s : sys) (Q : list loc) (n pred : loc)
    (h' : gmap positive QNode) :
  InvQ s Q ->
  pcs s !! n = Some (Linking pred) ->
  store_next pred (Some n) (heap s) = Some h' ->
  InvQ {| heap := h'; lk := lk s; pcs := <[n := Spinning]> (pcs s) |} Q.
Proof.
  intros HI Hn Hst.
  destruct (queue_behind s Q n _ HI Hn ltac:(eauto)) as (i & a & Ha & Hb & Hlk).
  destruct Hlk as (qa & qn & pb & Hqa & Hqn & Hpb & Hk).
  rewrite Hn in Hpb. injection Hpb as <-.
  destruct Hk as [[E _]|[[E [Hnexta Hwn]]|[E _]]]; try discriminate.
  injection E as ->.
  unfold store_next in Hst. rewrite Hqa in Hst. injection Hst as <-.
  destruct HI as [Hnd Ht Hqd Hin Ho Hl Hla Hh].
  assert (Hane : a <> n).
  { intros ->. pose proof (NoDup_lookup Q _ _ _ Hnd Ha Hb). lia. }
  assert (HaQ : a ∈ Q) by (now apply list_elem_of_lookup_2 in Ha).
  split; cbn [heap lk pcs].
  - exact Hnd.
  - exact Ht.
  - intros m p Hm. apply lookup_insert_Some in Hm as [[<- <-]|[Hne Hm]].
    + split; [reflexivity|]. intros _. now apply list_elem_of_lookup_2 in Hb.
    + now apply Hqd.
  - intros m Hm. destruct (decide (n = m)) as [<-|Hne].
    + rewrite lookup_insert_eq. eauto.
    + rewrite lookup_insert_ne by assumption. now apply Hin.
  - intros m p Hm Hqp. apply lookup_insert_Some in Hm as [[<- <-]|[Hne Hm]].
    + discriminate.
    + assert (m <> a).
      { intros ->. apply (Hqd a p Hm) in HaQ. congruence. }
      rewrite lookup_insert_ne by congruence. now apply Ho with p.
  - intros i' a' b' Ha' Hb'.
    destruct (decide (b' = n)) as [->|Hbn].
    + assert (i' = i) as -> by (apply eq_add_S; exact (NoDup_lookup Q _ _ _ Hnd Hb' Hb)).
      rewrite Ha in Ha'. injection Ha' as <-.
      exists {| next := Some n; waiting := waiting qa |}, qn, Spinning.
      cbn [heap pcs next]. rewrite !lookup_insert_eq.
      rewrite lookup_insert_ne by congruence.
      repeat split; try assumption. right. right. auto.
    + assert (Haa : a' <> a).
      { intros ->. pose proof (NoDup_lookup Q _ _ _ Hnd Ha' Ha) as ->.
        rewrite Hb in Hb'. congruence. }
      destruct (Hl i' a' b' Ha' Hb') as (qa' & qb' & pb' & Hqa' & Hqb' & Hpb' & Hk').
      destruct (decide (b' = a)) as [->|Hba].
      * rewrite Hqa in Hqb'. injection Hqb' as <-.
        exists qa', {| next := Some n; waiting := waiting qa |}, pb'.
        cbn [heap pcs waiting]. rewrite lookup_insert_eq.
        rewrite !lookup_insert_ne by congruence. auto.
      * exists qa', qb', pb'. cbn [heap pcs].
        rewrite !lookup_insert_ne by congruence. auto.
  - intros a' Ha'.
    assert (Haa : a' <> a).
    { intros ->. rewrite last_lookup in Ha'.
      pose proof (NoDup_lookup Q _ _ _ Hnd Ha' Ha) as E.
      apply lookup_lt_Some in Hb. lia. }
    rewrite lookup_insert_ne by congruence. now apply Hla.
  - intros a' p Ha' Hp.
    assert (Han : a' <> n).
    { intros ->. pose proof (NoDup_lookup Q _ _ _ Hnd Ha' Hb). lia. }
    rewrite lookup_insert_ne in Hp by congruence.
    assert (Hpn : forall succ, pcs s !! succ = Some Spinning ->
              <[n := Spinning]> (pcs s) !! succ = Some Spinning).
    { intros succ Hsp. destruct (decide (n = succ)) as [<-|Hns].
      - apply lookup_insert_eq.
      - now rewrite lookup_insert_ne. }
    pose proof (Hh a' p Ha' Hp) as Hok.
    destruct (decide (a' = a)) as [->|Haa].
    + unfold head_ok in *. cbn [heap pcs]. rewrite lookup_insert_eq.
      destruct p; try exact Hok.
      * destruct Hok as (q & Hq & Hw).
        pose proof (eq_trans (eq_sym Hqa) Hq) as E. injection E as <-. eauto.
      * eauto.
      * destruct Hok as [H1 H2]. split; [exact H1 | now apply Hpn].
    + apply (head_ok_frame s _ Q); cbn [heap pcs]; [exact Hok| |auto|].
      * apply lookup_insert_ne. congruence.
      * intros succ _. apply Hpn.
Qed.

(** [succ.waiting = 0]: the lock goes to the next in the queue, and the
    goroutine that had it is out. *)
Lemma InvQ_signal (s : sys) (Q : list loc) (n succ : loc)
    (h' : gmap positive QNode) :
  InvQ s Q ->
  pcs s !! n = Some (Signal succ) ->
  store_waiting succ 0 (heap s) = Some h' ->
  InvQ {| heap := h'; lk := lk s; pcs := delete n (pcs s) |} (tl Q).
Proof.
  intros HI Hn Hst.
  assert (H0 : Q !! 0%nat = Some n)
    by (apply (queue_head s Q n (Signal succ)); try assumption; easy).
  destruct (inv_head s Q HI n _ H0 Hn) as [H1 Hsp].
  destruct Q as [|n' [|succ' Q']]; try discriminate.
  cbn in H0, H1. injection H0 as ->. injection H1 as ->. cbn [tl].
  unfold store_waiting in Hst.
  destruct (heap s !! succ) as [qs|] eqn:Hqs; [|discriminate].
  injection Hst as <-.
  destruct HI as [Hnd Ht Hqd Hin Ho Hl Hla Hh].
  apply NoDup_cons in Hnd as [Hn' Hnd'].
  assert (Hsn : succ <> n) by (intros ->; apply Hn'; left).
  split; cbn [heap lk pcs].
  - exact Hnd'.
  - rewrite Ht. apply last_cons_cons.
  - intros m p Hm. apply lookup_delete_Some in Hm as [Hne Hm].
    rewrite <- (Hqd m p Hm). rewrite (elem_of_cons (succ :: Q') m n).
    split; [auto | intros [|]; [congruence | assumption]].
  - intros m Hm. rewrite lookup_delete_ne by (intros ->; contradiction).
    apply Hin. now right.
  - intros m p Hm Hqp. apply lookup_delete_Some in Hm as [Hne Hm].
    assert (m <> succ).
    { intros E. subst m.
      pose proof (eq_trans (eq_sym Hm) Hsp) as E. injection E as ->. discriminate. }
    rewrite lookup_insert_ne by congruence. now apply Ho with p.
  - intros i a b Ha Hb.
    destruct (Hl (S i) a b Ha Hb) as (qa & qb & pb & Hqa & Hqb & Hpb & Hk).
    assert (Hbs : b <> succ).
    { intros ->. pose proof (NoDup_lookup (succ :: Q') (S i) 0 succ Hnd' Hb eq_refl).
      lia. }
    assert (Hbn : b <> n).
    { intros ->. apply Hn'. now apply list_elem_of_lookup_2 in Hb. }
    destruct (decide (a = succ)) as [->|Has].
    + rewrite Hqs in Hqa. injection Hqa as <-.
      exists {| next := next qs; waiting := 0 |}, qb, pb. cbn [heap pcs next].
      rewrite lookup_insert_eq, lookup_insert_ne by congruence.
      rewrite lookup_delete_ne by congruence. auto.
    + exists qa, qb, pb. cbn [heap pcs].
      rewrite !lookup_insert_ne by congruence.
      rewrite lookup_delete_ne by congruence. auto.
  - intros a Ha. rewrite <- (last_cons_cons n) in Ha.
    destruct (Hla a Ha) as (q & Hq & Hnx).
    destruct (decide (a = succ)) as [->|Has].
    + rewrite Hqs in Hq. injection Hq as <-. rewrite lookup_insert_eq. eauto.
    + rewrite lookup_insert_ne by congruence. eauto.
  - intros a p Ha Hp. cbn in Ha. injection Ha as <-.
    rewrite lookup_delete_ne in Hp by congruence.
    pose proof (eq_trans (eq_sym Hsp) Hp) as E. injection E as <-.
    cbn [head_ok heap]. rewrite lookup_insert_eq. eauto.
Qed.

(** The holder's compare-and-swap of [tail] back to [nil] succeeds: it
    was alone in the queue. *)
Lemma InvQ_release (s : sys) (Q : list loc) (n : loc) :
  InvQ s Q ->
  pcs s !! n = Some Releasing ->
  tail (lk s) = Some n ->
  InvQ {| heap := heap s; lk := {| tail := None |}; pcs := delete n (pcs s) |} [].
Proof.
  intros HI Hn Ht.
  assert (H0 : Q !! 0%nat = Some n)
    by (apply (queue_head s Q n Releasing); try assumption; easy).
  destruct HI as [Hnd Htl Hqd Hin Ho Hl Hla Hh].
  assert (HQ : Q = [n]).
  { rewrite Htl, last_lookup in Ht.
    pose proof (NoDup_lookup Q _ _ _ Hnd H0 Ht) as E.
    destruct Q as [|x [|y Q']]; cbn in *; try discriminate; try congruence; lia. }
  subst Q.
  split; cbn [heap lk pcs tail].
  - constructor.
  - reflexivity.
  - intros m p Hm. apply lookup_delete_Some in Hm as [Hne Hm].
    rewrite <- (Hqd m p Hm). rewrite list_elem_of_singleton.
    split; [intros H; now apply elem_of_nil in H | congruence].
  - intros m Hm. now apply elem_of_nil in Hm.
  - intros m p Hm Hqp. apply lookup_delete_Some in Hm as [Hne Hm].
    now apply Ho with p.
  - intros i a b Ha. discriminate.
  - intros a Ha. discriminate.
  - intros a p Ha. discriminate.
Qed.

(** A [TryLock] whose compare-and-swap fails goes away. *)
Lemma InvQ_leave (s : sys) (Q : list loc) (n : loc) (p0 : pc) :
  InvQ s Q ->
  pcs s !! n = Some p0 -> queued p0 = false ->
  InvQ {| heap := heap s; lk := lk s; pcs := delete n (pcs s) |} Q.
Proof.
  intros HI Hn Hq0.
  assert (Hout : n ∉ Q).
  { intros Hin. apply (inv_queued s Q HI n p0 Hn) in Hin. congruence. }
  assert (Hpcs : forall m, m ∈ Q -> delete n (pcs s) !! m = pcs s !! m).
  { intros m Hm. apply lookup_delete_ne. congruence. }
  destruct HI as [Hnd Ht Hqd Hin Ho Hl Hla Hh].
  split; cbn [heap lk pcs].
  - exact Hnd.
  - exact Ht.
  - intros m p Hm. apply lookup_delete_Some in Hm as [Hne Hm]. now apply Hqd.
  - intros m Hm. rewrite Hpcs by assumption. now apply Hin.
  - intros m p Hm Hqp. apply lookup_delete_Some in Hm as [Hne Hm].
    now apply Ho with p.
  - intros i a b Ha Hb.
    apply (link_frame s); cbn [heap pcs]; [now apply Hl with i|reflexivity..|].
    apply Hpcs. now apply list_elem_of_lookup_2 in Hb.
  - exact Hla.
  - intros a p Ha Hp.
    rewrite Hpcs in Hp by (now apply list_elem_of_lookup_2 in Ha).
    apply (head_ok_frame s _ Q); cbn [heap pcs]; [now apply Hh|reflexivity|auto|].
    intros succ Hs Hsp.
    rewrite Hpcs; [exact Hsp|]. now apply list_elem_of_lookup_2 in Hs.
Qed.

(** What the first of the queue finds in its [next] is the second of
    the queue, linked and in its loop. *)
Lemma queue_head_next (s : sys) (Q : list loc) (n succ : loc) (q : QNode) :
  InvQ s Q -> Q !! 0%nat = Some n ->
  heap s !! n = Some q -> next q = Some succ ->
  Q !! 1%nat = Some succ /\ pcs s !! succ = Some Spinning /\ succ <> n.
Proof.
  intros HI H0 Hq Hnx.
  destruct (Q !! 1%nat) as [b|] eqn:H1.
  - destruct (inv_link s Q HI 0%nat n b H0 H1)
      as (qa & qb & pb & Hqa & Hqb & Hpb & Hk).
    pose proof (eq_trans (eq_sym Hq) Hqa) as E. injection E as <-.
    destruct Hk as [[_ Hk]|[[_ [Hk _]]|[-> [Hk _]]]]; try congruence.
    assert (b = succ) as -> by congruence.
    split; [reflexivity|]. split; [exact Hpb|].
    intros ->. pose proof (NoDup_lookup Q _ _ _ (inv_nodup s Q HI) H0 H1). lia.
  - exfalso.
    assert (Hlast : last Q = Some n).
    { destruct Q as [|x [|y Q']]; cbn in *; congruence. }
    destruct (inv_last s Q HI n Hlast) as (q' & Hq' & Hnx').
    pose proof (eq_trans (eq_sym Hq) Hq') as E. injection E as <-. congruence.
Qed.

Lemma InvQ_step (s s' : sys) (Q : list loc) :
  InvQ s Q -> step s s' -> exists Q', InvQ s' Q'.
Proof.
  intros HI Hs.
  destruct Hs as [s n h' Hp Hst | s n Hp | s n pred h' Hp Hst
                 | s n pred h' Hp Hst | s n q Hp Hq Hw | s n q Hp Hq
                 | s n ok l' Hp Hcas | s n succ q Hp Hq Hnx
                 | s n succ q Hp Hq Hnx | s n succ h' Hp Hst
                 | s n h' Hp Hst | s n ok l' Hp Hcas].
  - exists Q. now apply InvQ_begin.
  - exists (Q ++ [n]). now apply InvQ_swap with Swapping.
  - exists Q. now apply InvQ_set_waiting.
  - exists Q. now apply InvQ_link with pred.
  - exists Q. apply InvQ_head_pc; try easy.
    assert (Hin : n ∈ Q) by (now apply (inv_queued s Q HI n Spinning)).
    destruct (decide (Q !! 0%nat = Some n)) as [|Hne]; [assumption|].
    exfalso. destruct (queue_pred Q n Hin Hne) as (i & a & Ha & Hb).
    destruct (inv_link s Q HI i a n Ha Hb)
      as (qa & qb & pb & Hqa & Hqb & Hpb & Hk).
    pose proof (eq_trans (eq_sym Hp) Hpb) as E. injection E as <-.
    pose proof (eq_trans (eq_sym Hq) Hqb) as E. injection E as <-.
    apply Z.eqb_eq in Hw.
    destruct Hk as [[? _]|[[? _]|[_ [_ Hw']]]]; try discriminate. lia.
  - exists Q.
    assert (H1 : Q !! 0%nat = Some n)
      by (apply (queue_head s Q n Critical); try assumption; easy).
    apply InvQ_head_pc; try assumption; [now destruct (next q)|].
    destruct (next q) as [succ|] eqn:Hnx; cbn [head_ok heap]; eauto.
  - unfold CompareAndSwap in Hcas.
    destruct (decide (tail (lk s) = Some n)) as [Ht|Ht].
    + injection Hcas as <- <-. exists []. now apply InvQ_release with Q.
    + injection Hcas as <- <-. exists Q.
      assert (Hh : Q !! 0%nat = Some n)
        by (apply (queue_head s Q n Releasing); try assumption; easy).
      apply InvQ_head_pc; try easy. cbn [head_ok].
      destruct (Q !! 1%nat) as [b|] eqn:H1; [eauto|]. exfalso. apply Ht.
      rewrite (inv_tail s Q HI).
      destruct Q as [|x [|y Q']]; cbn in *; congruence.
  - exists Q.
    assert (Hh : Q !! 0%nat = Some n)
      by (apply (queue_head s Q n AwaitLink); try assumption; easy).
    destruct (queue_head_next s Q n succ q HI Hh Hq Hnx) as (H2 & H3 & H4).
    apply InvQ_head_pc; try easy. split; [exact H2|]. cbn [pcs].
    rewrite lookup_insert_ne; [exact H3 | congruence].
  - exists Q.
    assert (Hh : Q !! 0%nat = Some n)
      by (apply (queue_head s Q n Signalling); try assumption; easy).
    destruct (queue_head_next s Q n succ q HI Hh Hq Hnx) as (H2 & H3 & H4).
    apply InvQ_head_pc; try easy. split; [exact H2|]. cbn [pcs].
    rewrite lookup_insert_ne; [exact H3 | congruence].
  - exists (tl Q). now apply InvQ_signal with succ.
  - exists Q. now apply InvQ_begin.
  - unfold CompareAndSwap in Hcas.
    destruct (decide (tail (lk s) = None)) as [Ht|Ht].
    + injection Hcas as <- <-. exists (Q ++ [n]).
      pose proof (InvQ_swap s Q n Trying HI Hp eq_refl) as HI'.
      now rewrite Ht in HI'.
    + injection Hcas as <- <-. exists Q. now apply InvQ_leave with Trying.
Qed.

Lemma InvQ_reachable (h0 : gmap positive QNode) (s : sys) :
  reachable h0 s -> exists Q, InvQ s Q.
Proof.
  induction 1 as [|s s' _ [Q HI] Hs].
  - exists []. apply InvQ_init.
  - now apply InvQ_step with s Q.
Qed.

(** Node 1 took the free lock, node 2 has swapped itself into [tail]
    behind it. *)
Lemma reachable_holder_and_waiter :
  let q := {| next := Some 7%positive; waiting := 3 |} in
  let h0 : gmap positive QNode := <[1%positive := q]> {[ 2%positive := q ]} in
  exists s,
    reachable h0 s /\
    pcs s !! 1%positive = Some Critical /\
    pcs s !! 2%positive = Some (SetWaiting 1%positive) /\
    lk s = {| tail := Some 2%positive |}.
Proof.
  intros q h0. eexists. split.
  - eapply reach_step.
    + eapply reach_step.
      * eapply reach_step.
        -- eapply reach_step; [apply reach_init|].
           apply (step_lock_begin (init h0) 1%positive); reflexivity.
        -- eapply (step_swap _ 1%positive). reflexivity.
      * eapply (step_lock_begin _ 2%positive); reflexivity.
    + eapply (step_swap _ 2%positive). reflexivity.
  - repeat split; reflexivity.
Defined.

(** Mutual exclusion of the MCS lock: however the shared-memory
    accesses of goroutines in [Lock], [TryLock] and [Unlock] interleave,
    whatever the nodes held at the start, at most one goroutine is in
    its critical section. *)
Theorem mcs_mutual_exclusion (h0 : gmap positive QNode) (s : sys) :
  reachable h0 s -> mutual_exclusion s.
Proof.
  intros H. destruct (InvQ_reachable h0 s H) as [Q HI].
  now apply InvQ_mutual_exclusion with Q.
Qed.

Lemma mcs_mutual_exclusion_witness :
  exists s,
    pcs s !! 1%positive = Some Critical /\
    pcs s !! 2%positive = Some (SetWaiting 1%positive) /\
    mutual_exclusion s.
Proof.
  destruct reachable_holder_and_waiter as (s & Hr & H1 & H2 & _).
  exists s. split; [exact H1|]. split; [exact H2|].
  exact (mcs_mutual_exclusion _ s Hr).
Defined.

(** [IsFree] is true exactly when no goroutine holds the lock or has
    put its node in line for it. *)
Theorem mcs_free_iff_nobody_queued (h0 : gmap positive QNode) (s : sys) :
  reachable h0 s ->
  (IsFree (lk s) = true <->
   forall n p, pcs s !! n = Some p -> queued p = false).
Proof.
  intros H. destruct (InvQ_reachable h0 s H) as [Q HI].
  unfold IsFree. rewrite (inv_tail s Q HI). split.
  - intros Hf n p Hn. destruct (last Q) eqn:E; [discriminate|].
    apply last_None in E. subst Q.
    destruct (queued p) eqn:Hq; [|reflexivity].
    apply (inv_queued s [] HI n p Hn) in Hq. now apply elem_of_nil in Hq.
  - intros Hall. destruct (last Q) as [a|] eqn:E; [|reflexivity].
    exfalso. apply last_Some_elem_of in E.
    destruct (inv_inside s Q HI a E) as [p Hp].
    pose proof (Hall a p Hp) as Hq.
    apply (inv_queued s Q HI a p Hp) in E. congruence.
Qed.

Lemma mcs_free_iff_nobody_queued_witness :
  exists s,
    pcs s !! 1%positive = Some Critical /\
    (IsFree (lk s) = true <->
     forall n p, pcs s !! n = Some p -> queued p = false).
Proof.
  destruct reachable_holder_and_waiter as (s & Hr & H1 & _).
  exists s. split; [exact H1|].
  exact (mcs_free_iff_nobody_queued _ s Hr).
Defined.

Lemma queue_member_node (s : sys) (Q : list loc) (i : nat) (a : loc) :
  InvQ s Q -> Q !! i = Some a -> exists q, heap s !! a = Some q.
Proof.
  intros HI Ha. destruct (Q !! S i) as [b|] eqn:Hb.
  - destruct (inv_link s Q HI i a b Ha Hb) as (qa & _ & _ & Hqa & _). eauto.
  - assert (Hlast : last Q = Some a).
    { rewrite last_lookup. apply lookup_ge_None in Hb.
      pose proof (lookup_lt_Some _ _ _ Ha).
      replace (Nat.pred (length Q)) with i by lia. exact Ha. }
    destruct (inv_last s Q HI a Hlast) as (q & Hq & _). eauto.
Qed.

(** [Unlock] never reaches through a [nil] successor: when it goes on
    to its second load of [node.next], having seen a successor at the
    first, the successor is there, and its node exists. *)
Theorem mcs_unlock_successor_not_nil (h0 : gmap positive QNode) (s : sys)
    (n : loc) :
  reachable h0 s ->
  pcs s !! n = Some Signalling ->
  exists q succ qs,
    heap s !! n = Some q /\ next q = Some succ /\ heap s !! succ = Some qs.
Proof.
  intros H Hn. destruct (InvQ_reachable h0 s H) as [Q HI].
  assert (Hh : Q !! 0%nat = Some n)
    by (apply (queue_head s Q n Signalling); try assumption; easy).
  destruct (inv_head s Q HI n _ Hh Hn) as (q & succ & Hq & Hnx).
  destruct (queue_head_next s Q n succ q HI Hh Hq Hnx) as (H1 & _ & _).
  destruct (queue_member_node s Q 1 succ HI H1) as [qs Hqs].
  exists q, succ, qs. auto.
Qed.

(** Node 1 holds the lock and has begun [Unlock]; node 2 is linked
    behind it and in its loop. *)
Lemma reachable_unlock_with_successor :
  let q := {| next := Some 7%positive; waiting := 3 |} in
  let h0 : gmap positive QNode := <[1%positive := q]> {[ 2%positive := q ]} in
  exists s,
    reachable h0 s /\
    pcs s !! 1%positive = Some Signalling /\
    pcs s !! 2%positive = Some Spinning.
Proof.
  intros q h0. eexists. split.
  - eapply reach_step.
    + eapply reach_step.
      * eapply reach_step.
        -- eapply reach_step.
           ++ eapply reach_step.
              ** eapply reach_step.
                 --- eapply reach_step; [apply reach_init|].
                     apply (step_lock_begin (init h0) 1%positive); reflexivity.
                 --- eapply (step_swap _ 1%positive). reflexivity.
              ** eapply (step_lock_begin _ 2%positive); reflexivity.
           ++ eapply (step_swap _ 2%positive). reflexivity.
        -- eapply (step_set_waiting _ 2%positive 1%positive); reflexivity.
      * eapply (step_link _ 2%positive 1%positive); reflexivity.
    + eapply (step_unlock_load _ 1%positive); reflexivity.
  - split; reflexivity.
Defined.

Lemma mcs_unlock_successor_not_nil_witness :
  exists s q succ qs,
    pcs s !! 1%positive = Some Signalling /\
    heap s !! 1%positive = Some q /\ next q = Some succ /\
    heap s !! succ = Some qs.
Proof.
  destruct reachable_unlock_with_successor as (s & Hr & H1 & _).
  destruct (mcs_unlock_successor_not_nil _ s 1%positive Hr H1)
    as (q & succ & qs & Hq & Hnx & Hqs).
  exists s, q, succ, qs. auto.
Defined.

(** No deadlock: while some goroutine is inside [Lock], [TryLock] or
    [Unlock], one of those inside can make its next access to memory
    and move on.  In particular no goroutine waits in its loop for a
    store that nobody is going to make. *)
Theorem mcs_no_deadlock (h0 : gmap positive QNode) (s : sys) :
  reachable h0 s ->
  pcs s <> ∅ ->
  exists n p s',
    pcs s !! n = Some p /\ step s s' /\ pcs s' !! n <> Some p.
Proof.
  intros H Hne. destruct (InvQ_reachable h0 s H) as [Q HI].
  destruct Q as [|n rest].
  - destruct (map_choose (pcs s) Hne) as (n & p & Hn).
    assert (Hq : queued p = false).
    { destruct (queued p) eqn:Hq; [|reflexivity].
      apply (inv_queued s [] HI n p Hn) in Hq. now apply elem_of_nil in Hq. }
    exists n, p. destruct p; try discriminate.
    + eexists. split; [exact Hn|]. split; [exact (step_swap s n Hn)|].
      cbn [pcs]. rewrite lookup_insert_eq. now destruct (tail (lk s)).
    + destruct (CompareAndSwap (lk s) None (Some n)) as [ok l'] eqn:E.
      eexists. split; [exact Hn|]. split; [exact (step_try_cas s n ok l' Hn E)|].
      cbn [pcs]. destruct ok.
      * rewrite lookup_insert_eq. discriminate.
      * rewrite lookup_delete_eq. discriminate.
  - assert (Hh : (n :: rest) !! 0%nat = Some n) by reflexivity.
    destruct (inv_inside s _ HI n ltac:(left)) as [p Hn].
    pose proof (inv_head s _ HI n p Hh Hn) as Hok.
    destruct (queue_member_node s _ 0 n HI Hh) as [qn Hqn].
    destruct p; cbn [head_ok] in Hok; try contradiction.
    + destruct Hok as (q & Hq & Hw).
      exists n, Spinning. eexists. split; [exact Hn|]. split.
      * apply (step_spin_exit s n q Hn Hq). now apply Z.eqb_eq.
      * cbn [pcs]. rewrite lookup_insert_eq. discriminate.
    + exists n, Critical. eexists. split; [exact Hn|]. split.
      * exact (step_unlock_load s n qn Hn Hqn).
      * cbn [pcs]. rewrite lookup_insert_eq. now destruct (next qn).
    + destruct (CompareAndSwap (lk s) (Some n) None) as [ok l'] eqn:E.
      exists n, Releasing. eexists. split; [exact Hn|]. split.
      * exact (step_release_cas s n ok l' Hn E).
      * cbn [pcs]. destruct ok.
        -- rewrite lookup_delete_eq. discriminate.
        -- rewrite lookup_insert_eq. discriminate.
    + destruct Hok as [b Hb].
      destruct (inv_link s _ HI 0%nat n b Hh Hb)
        as (qa & qb & pb & Hqa & Hqb & Hpb & Hk).
      destruct Hk as [[-> _]|[[-> _]|[-> [Hnx _]]]].
      * exists b, (SetWaiting n). eexists. split; [exact Hpb|]. split.
        -- apply (step_set_waiting s b n). { exact Hpb. }
           unfold store_waiting. now rewrite Hqb.
        -- cbn [pcs]. rewrite lookup_insert_eq. discriminate.
      * exists b, (Linking n). eexists. split; [exact Hpb|]. split.
        -- apply (step_link s b n). { exact Hpb. }
           unfold store_next. now rewrite Hqa.
        -- cbn [pcs]. rewrite lookup_insert_eq. discriminate.
      * exists n, AwaitLink. eexists. split; [exact Hn|]. split.
        -- exact (step_await s n b qa Hn Hqa Hnx).
        -- cbn [pcs]. rewrite lookup_insert_eq. discriminate.
    + destruct Hok as (q & succ & Hq & Hnx).
      exists n, Signalling. eexists. split; [exact Hn|]. split.
      * exact (step_signalling s n succ q Hn Hq Hnx).
      * cbn [pcs]. rewrite lookup_insert_eq. discriminate.
    + destruct Hok as [H1 Hsp].
      destruct (queue_member_node s _ 1 succ HI H1) as [qs Hqs].
      exists n, (Signal succ). eexists. split; [exact Hn|]. split.
      * apply (step_signal s n succ). { exact Hn. }
        unfold store_waiting. now rewrite Hqs.
      * cbn [pcs]. rewrite lookup_delete_eq. discriminate.
Qed.

Lemma mcs_no_deadlock_witness :
  exists s n p s',
    pcs s !! 2%positive = Some Spinning /\
    pcs s !! n = Some p /\ step s s' /\ pcs s' !! n <> Some p.
Proof.
  destruct reachable_unlock_with_successor as (s & Hr & H1 & H2).
  assert (Hne : pcs s <> ∅).
  { intros E. rewrite E in H1. now rewrite lookup_empty in H1. }
  destruct (mcs_no_deadlock _ s Hr Hne) as (n & p & s' & Hn & Hs & Hn').
  exists s, n, p, s'. auto.
Defined.

End MCSSystem.
